(** * music-mcp: the tool registry and the call-tool dispatcher of [src/index.ts]

    The server answers two requests: "list tools" (a static catalogue of 28
    descriptors) and "call tool" (a [switch] on the tool name whose branches
    build an AppleScript, hand it to [execSync] through [runAppleScript] or
    [runAppleScriptMulti], and wrap the captured text).

    Modelling choices, all taken from the source:
    - strings are [string] (code units below 256); the global regex
      replacements of one character are written as a character-wise map;
    - the external executor [execSync] is a variable of the section: it either
      returns the captured standard output or throws an error object carrying
      [message] and, possibly, [stderr];
    - a handler branch runs in a small monad that threads the log of the
      commands handed to [execSync] and may throw a JavaScript error;
    - the argument object is a record of optional fields, [None] standing
      for an absent ([undefined]) property; a present value has the type
      that the TypeScript cast of the branch declares; a request that
      carries no [arguments] at all is treated apart ([callRequest]);
    - numbers are the integers, together with [NaN] where the code can
      produce it ([Math.min] of an absent value). *)

From Stdlib Require Import String Ascii List ZArith Lia Bool.
From Stdlib Require Import DecimalString.
Import ListNotations.
Open Scope string_scope.


(* ================================================================= *)
(** ** Characters and JavaScript string primitives *)

Definition dquote : ascii := "034"%char.
Definition squote : ascii := "039"%char.
Definition backslash : ascii := "092"%char.
Definition LF : ascii := "010"%char.

Definition str1 (c : ascii) : string := String c EmptyString.

(** [dq] is the one-character string holding a double quote; [q s] is [s]
    between double quotes, as the source writes ["Music"] inside a script. *)
Definition dq : string := str1 dquote.
Definition sq : string := str1 squote.
Definition bs : string := str1 backslash.
Definition nl : string := str1 LF.
Definition q (s : string) : string := dq ++ s ++ dq.

(** A template literal that spans several lines: the lines joined by LF. *)
Definition unlines (ls : list string) : string := String.concat nl ls.

(** [s.replace(/c/g, rep)] for a single literal character [c]. *)
Fixpoint replaceAll (c : ascii) (rep : string) (s : string) : string :=
  match s with
  | EmptyString => EmptyString
  | String a r =>
      (if Ascii.eqb a c then rep else str1 a) ++ replaceAll c rep r
  end.

(** [String.prototype.trim]: white space and line terminators below 256. *)
Definition isWhiteSpace (c : ascii) : bool :=
  match nat_of_ascii c with
  | 9 | 10 | 11 | 12 | 13 | 32 | 160 => true
  | _ => false
  end.

Fixpoint trimStart (s : string) : string :=
  match s with
  | EmptyString => EmptyString
  | String c r => if isWhiteSpace c then trimStart r else s
  end.

Fixpoint trimEnd (s : string) : string :=
  match s with
  | EmptyString => EmptyString
  | String c r =>
      match trimEnd r with
      | EmptyString => if isWhiteSpace c then EmptyString else str1 c
      | r' => String c r'
      end
  end.

Definition trim (s : string) : string := trimEnd (trimStart s).

(** Truthiness of a string value that may be absent. *)
Definition truthy (o : option string) : bool :=
  match o with
  | Some s => negb (s =? "")
  | None => false
  end.

(* ================================================================= *)
(** ** Numbers *)

Inductive JsNumber : Type :=
| NaN : JsNumber
| Num : Z -> JsNumber.

(** [ToNumber] of a property typed [number]: an absent one is [undefined],
    which converts to [NaN]. *)
Definition toNumber (o : option Z) : JsNumber :=
  match o with
  | Some z => Num z
  | None => NaN
  end.

Definition Math_min (a b : JsNumber) : JsNumber :=
  match a, b with
  | Num x, Num y => Num (Z.min x y)
  | _, _ => NaN
  end.

Definition Math_max (a b : JsNumber) : JsNumber :=
  match a, b with
  | Num x, Num y => Num (Z.max x y)
  | _, _ => NaN
  end.

(** Template interpolation of an integer: its decimal digits. This is what
    JavaScript writes for the safe integers (magnitude at most 2^53 - 1);
    beyond them a double rounds the integer, and from 1e21 on JavaScript
    turns to exponent notation, so statements about the digits of a
    position or a limit are made for safe integers. *)
Definition Z_toString (z : Z) : string := NilZero.string_of_int (Z.to_int z).

Definition Number_toString (n : JsNumber) : string :=
  match n with
  | NaN => "NaN"
  | Num z => Z_toString z
  end.

Definition Boolean_toString (b : bool) : string :=
  if b then "true" else "false".

(** [`${v}`] for a property that may be absent. *)
Definition interpolate {A : Type} (show : A -> string) (o : option A) : string :=
  match o with
  | Some v => show v
  | None => "undefined"
  end.

(* ================================================================= *)
(** ** Errors, results and the executor *)

(** A thrown JavaScript error object: its [message], and the [stderr]
    property that [execSync] attaches to the errors it throws. *)
Record JsError : Type := mkError {
  message : string;
  stderr : option string
}.

Definition Error (msg : string) : JsError := mkError msg None.

(** V8's message for a property read on [undefined]. *)
Definition TypeError_undefined (prop : string) : JsError :=
  Error ("Cannot read properties of undefined (reading '" ++ prop ++ "')").

Record Content : Type := mkContent {
  type : string;
  text : string
}.

(** The object the call-tool handler returns; a result written without an
    [isError] property has [isError = false]. *)
Record CallToolResult : Type := mkResult {
  content : list Content;
  isError : bool
}.

Definition okResult (t : string) : CallToolResult :=
  mkResult [mkContent "text" t] false.

Definition errResult (t : string) : CallToolResult :=
  mkResult [mkContent "text" t] true.

(** The log of the command strings handed to [execSync], oldest first. *)
Definition Log : Type := list string.

(** A computation that may call the executor and may throw. *)
Definition M (A : Type) : Type := Log -> Log * (JsError + A).

Definition ret {A : Type} (a : A) : M A := fun l => (l, inr a).

Definition throw {A : Type} (e : JsError) : M A := fun l => (l, inl e).

Definition bind {A B : Type} (m : M A) (k : A -> M B) : M B :=
  fun l =>
    match m l with
    | (l', inr a) => k a l'
    | (l', inl e) => (l', inl e)
    end.

Definition try_catch {A : Type} (m : M A) (h : JsError -> M A) : M A :=
  fun l =>
    match m l with
    | (l', inr a) => (l', inr a)
    | (l', inl e) => h e l'
    end.

Notation "x <- m ;; k" := (bind m (fun x => k))
  (at level 61, m at next level, right associativity).
Notation "m ;;; k" := (bind m (fun _ => k))
  (at level 61, right associativity).

(** [err.stderr || err.message] *)
Definition stderr_or_message (e : JsError) : string :=
  match stderr e with
  | Some s => if s =? "" then message e else s
  | None => message e
  end.

(** The two escaping disciplines. *)
Definition escapeSingle (script : string) : string :=
  replaceAll squote (sq ++ dq ++ sq ++ dq ++ sq) script.

Definition escapeMulti (script : string) : string :=
  replaceAll dquote (bs ++ dq) (replaceAll backslash (bs ++ bs) script).

(** The per-script [x.replace(/"/g, '\\"')]. *)
Definition escapeQuotes (s : string) : string :=
  replaceAll dquote (bs ++ dq) s.

Definition commandSingle (script : string) : string :=
  "osascript -e '" ++ escapeSingle script ++ "'".

Definition commandMulti (script : string) : string :=
  "osascript -e " ++ dq ++ escapeMulti script ++ dq.

(* ================================================================= *)
(** ** The tool registry (the list-tools handler) *)

Record Property : Type := mkProperty {
  pname : string;
  ptype : string;
  pdescription : string;
  minimum : option Z;
  maximum : option Z;
  enum : option (list string)
}.

(** A descriptor; its [inputSchema] always has [type: 'object'], so only the
    [properties] and the [required] list are kept. *)
Record Tool : Type := mkTool {
  name : string;
  description : string;
  properties : list Property;
  required : list string
}.

Definition noArgs (n d : string) : Tool := mkTool n d [] [].

Definition prop (n t d : string) : Property := mkProperty n t d None None None.

Definition tools : list Tool :=
  [ (* Playback Control *)
    noArgs "music_play" "Start playing music or resume playback";
    noArgs "music_pause" "Pause playback";
    noArgs "music_stop" "Stop playback";
    noArgs "music_next" "Skip to the next track";
    noArgs "music_previous" "Go to the previous track";
    noArgs "music_toggle_playback" "Toggle between play and pause";
    (* Current Track Info *)
    noArgs "music_get_current_track"
      "Get information about the currently playing track";
    noArgs "music_get_player_state"
      "Get the current player state (playing, paused, stopped)";
    (* Volume Control *)
    noArgs "music_get_volume" "Get the current volume level (0-100)";
    mkTool "music_set_volume" "Set the volume level (0-100)"
      [ mkProperty "volume" "number" "Volume level (0-100)"
          (Some 0%Z) (Some 100%Z) None ]
      [ "volume" ];
    (* Position Control *)
    noArgs "music_get_position" "Get the current playback position in seconds";
    mkTool "music_set_position" "Set the playback position in seconds"
      [ prop "position" "number" "Position in seconds" ]
      [ "position" ];
    (* Shuffle and Repeat *)
    noArgs "music_get_shuffle" "Get the shuffle state";
    mkTool "music_set_shuffle" "Set shuffle on or off"
      [ prop "enabled" "boolean" "Enable or disable shuffle" ]
      [ "enabled" ];
    noArgs "music_get_repeat" "Get the repeat mode (off, one, all)";
    mkTool "music_set_repeat" "Set the repeat mode"
      [ mkProperty "mode" "string"
          "Repeat mode: off, one (repeat track), or all (repeat playlist)"
          None None (Some [ "off"; "one"; "all" ]) ]
      [ "mode" ];
    (* Library Access *)
    noArgs "music_get_playlists" "Get all playlists";
    mkTool "music_get_playlist_tracks" "Get tracks in a specific playlist"
      [ prop "playlist" "string" "Playlist name";
        prop "limit" "number"
          "Maximum number of tracks to return (default: 50)" ]
      [ "playlist" ];
    mkTool "music_play_playlist" "Play a specific playlist"
      [ prop "playlist" "string" "Playlist name";
        prop "shuffle" "boolean" "Shuffle the playlist (default: false)" ]
      [ "playlist" ];
    (* Search and Play *)
    mkTool "music_search_library"
      "Search the music library for songs, albums, or artists"
      [ prop "query" "string" "Search query";
        mkProperty "searchType" "string" "Type of search (default: all)"
          None None (Some [ "songs"; "albums"; "artists"; "all" ]);
        prop "limit" "number" "Maximum number of results (default: 20)" ]
      [ "query" ];
    mkTool "music_play_song" "Play a specific song by name"
      [ prop "song" "string" "Song name to play";
        prop "artist" "string"
          "Artist name (optional, helps find the right song)" ]
      [ "song" ];
    mkTool "music_play_album" "Play a specific album"
      [ prop "album" "string" "Album name";
        prop "artist" "string" "Artist name (optional)" ]
      [ "album" ];
    mkTool "music_play_artist" "Play songs by a specific artist"
      [ prop "artist" "string" "Artist name";
        prop "shuffle" "boolean" "Shuffle the songs (default: true)" ]
      [ "artist" ];
    mkTool "music_add_to_queue" "Add a song to the play queue"
      [ prop "song" "string" "Song name to add";
        prop "artist" "string" "Artist name (optional)" ]
      [ "song" ];
    (* Favorites *)
    noArgs "music_love_track" "Love (favorite) the current track";
    noArgs "music_dislike_track" "Dislike the current track";
    (* Application Control *)
    noArgs "music_open" "Open the Music app";
    noArgs "music_quit" "Quit the Music app" ].

(** The names the list-tools response carries, in order. *)
Definition toolNames : list string := map name tools.

(* ================================================================= *)
(** ** The argument object of a call *)

Record Args : Type := mkArgs {
  volume : option Z;
  position : option Z;
  enabled : option bool;
  mode : option string;
  playlist : option string;
  limit : option Z;
  shuffle : option bool;
  query : option string;
  searchType : option string;
  song : option string;
  album : option string;
  artist : option string
}.

Definition noArguments : Args :=
  mkArgs None None None None None None None None None None None None.

(** A destructuring default, [{ x = d }]: used exactly when [x] is absent. *)
Definition withDefault {A : Type} (d : A) (o : option A) : A :=
  match o with
  | Some v => v
  | None => d
  end.

(* ================================================================= *)
(** ** The script templates *)

Definition tellMusic (stmt : string) : string :=
  "tell application " ++ q "Music" ++ " to " ++ stmt.

Definition current_track_script : string :=
  unlines
    [ "";
      "tell application " ++ q "Music";
      "  if player state is not stopped then";
      "    set currentTrack to current track";
      "    set trackInfo to " ++ q "Name: " ++ " & name of currentTrack & " ++ q "\n";
      "    set trackInfo to trackInfo & " ++ q "Artist: " ++ " & artist of currentTrack & " ++ q "\n";
      "    set trackInfo to trackInfo & " ++ q "Album: " ++ " & album of currentTrack & " ++ q "\n";
      "    set trackInfo to trackInfo & " ++ q "Duration: " ++ " & (duration of currentTrack) & " ++ q " seconds\n";
      "    set trackInfo to trackInfo & " ++ q "Year: " ++ " & year of currentTrack & " ++ q "\n";
      "    set trackInfo to trackInfo & " ++ q "Genre: " ++ " & genre of currentTrack";
      "    return trackInfo";
      "  else";
      "    return " ++ q "No track is currently playing";
      "  end if";
      "end tell" ].

Definition playlists_script : string :=
  unlines
    [ "";
      "tell application " ++ q "Music";
      "  set playlistNames to " ++ q "";
      "  repeat with p in playlists";
      "    set playlistNames to playlistNames & name of p & " ++ q "\n";
      "  end repeat";
      "  return playlistNames";
      "end tell" ].

Definition playlist_tracks_script (safeName : string) (limit : Z) : string :=
  unlines
    [ "";
      "tell application " ++ q "Music";
      "  try";
      "    set thePlaylist to playlist " ++ q safeName;
      "    set trackList to " ++ q "";
      "    set trackCount to 0";
      "    repeat with t in tracks of thePlaylist";
      "      if trackCount < " ++ Z_toString limit ++ " then";
      "        set trackList to trackList & name of t & " ++ q " - " ++ " & artist of t & " ++ q "\n";
      "        set trackCount to trackCount + 1";
      "      end if";
      "    end repeat";
      "    if trackList is " ++ q "" ++ " then";
      "      return " ++ q "Playlist is empty";
      "    end if";
      "    return trackList";
      "  on error";
      "    return " ++ q ("Playlist not found: " ++ safeName);
      "  end try";
      "end tell" ].

Definition play_playlist_script (safeName : string) (shuffle : bool) : string :=
  unlines
    [ "";
      "tell application " ++ q "Music";
      "  try";
      "    set thePlaylist to playlist " ++ q safeName;
      "    " ++ (if shuffle then "set shuffle enabled to true" else "");
      "    play thePlaylist";
      "    return " ++ q ("Playing playlist: " ++ safeName);
      "  on error";
      "    return " ++ q ("Playlist not found: " ++ safeName);
      "  end try";
      "end tell" ].

Definition search_songs_script (safeQuery : string) (limit : Z) : string :=
  unlines
    [ "";
      "tell application " ++ q "Music";
      "  set results to " ++ q "";
      "  set matchCount to 0";
      "  repeat with t in (every track whose name contains " ++ q safeQuery
        ++ " or artist contains " ++ q safeQuery
        ++ " or album contains " ++ q safeQuery ++ ")";
      "    if matchCount < " ++ Z_toString limit ++ " then";
      "      set results to results & name of t & " ++ q " - " ++ " & artist of t & "
        ++ q " (" ++ " & album of t & " ++ q ")\n";
      "      set matchCount to matchCount + 1";
      "    end if";
      "  end repeat";
      "  if results is " ++ q "" ++ " then";
      "    return " ++ q ("No results found for: " ++ safeQuery);
      "  end if";
      "  return results";
      "end tell" ].

Definition search_albums_script (safeQuery : string) (limit : Z) : string :=
  unlines
    [ "";
      "tell application " ++ q "Music";
      "  set results to " ++ q "";
      "  set albumList to {}";
      "  set matchCount to 0";
      "  repeat with t in (every track whose album contains " ++ q safeQuery ++ ")";
      "    if matchCount < " ++ Z_toString limit ++ " then";
      "      set albumKey to album of t & " ++ q " - " ++ " & album artist of t";
      "      if albumKey is not in albumList then";
      "        set end of albumList to albumKey";
      "        set results to results & album of t & " ++ q " - " ++ " & album artist of t & " ++ q "\n";
      "        set matchCount to matchCount + 1";
      "      end if";
      "    end if";
      "  end repeat";
      "  if results is " ++ q "" ++ " then";
      "    return " ++ q ("No albums found for: " ++ safeQuery);
      "  end if";
      "  return results";
      "end tell" ].

Definition search_artists_script (safeQuery : string) (limit : Z) : string :=
  unlines
    [ "";
      "tell application " ++ q "Music";
      "  set results to " ++ q "";
      "  set artistList to {}";
      "  set matchCount to 0";
      "  repeat with t in (every track whose artist contains " ++ q safeQuery ++ ")";
      "    if matchCount < " ++ Z_toString limit ++ " then";
      "      set artistName to artist of t";
      "      if artistName is not in artistList then";
      "        set end of artistList to artistName";
      "        set results to results & artistName & " ++ q "\n";
      "        set matchCount to matchCount + 1";
      "      end if";
      "    end if";
      "  end repeat";
      "  if results is " ++ q "" ++ " then";
      "    return " ++ q ("No artists found for: " ++ safeQuery);
      "  end if";
      "  return results";
      "end tell" ].

(** [enabled ? a : b] on a boolean property that may be absent. *)
Definition truthyBool (o : option bool) : bool :=
  match o with
  | Some b => b
  | None => false
  end.

(** [safeArtist ? a : b], where [safeArtist] is a string or [null]. *)
Definition ifTruthy {A : Type} (o : option string) (a : string -> A) (b : A) : A :=
  match o with
  | Some s => if s =? "" then b else a s
  | None => b
  end.

Definition matching_tracks_stmt (safeSong : string) (safeArtist : option string) : string :=
  ifTruthy safeArtist
    (fun a => "set matchingTracks to (every track whose name contains " ++ q safeSong
              ++ " and artist contains " ++ q a ++ ")")
    ("set matchingTracks to (every track whose name contains " ++ q safeSong ++ ")").

Definition play_song_script (safeSong : string) (safeArtist : option string) : string :=
  unlines
    [ "";
      "tell application " ++ q "Music";
      "  try";
      "    " ++ matching_tracks_stmt safeSong safeArtist;
      "    if (count of matchingTracks) > 0 then";
      "      play item 1 of matchingTracks";
      "      set t to item 1 of matchingTracks";
      "      return " ++ q "Playing: " ++ " & name of t & " ++ q " - " ++ " & artist of t";
      "    else";
      "      return " ++ q ("Song not found: " ++ safeSong);
      "    end if";
      "  on error errMsg";
      "    return " ++ q "Error: " ++ " & errMsg";
      "  end try";
      "end tell" ].

Definition play_album_script (safeAlbum : string) (safeArtist : option string) : string :=
  unlines
    [ "";
      "tell application " ++ q "Music";
      "  try";
      "    " ++ ifTruthy safeArtist
        (fun a => "set albumTracks to (every track whose album is " ++ q safeAlbum
                  ++ " and album artist contains " ++ q a ++ ")")
        ("set albumTracks to (every track whose album is " ++ q safeAlbum ++ ")");
      "    if (count of albumTracks) > 0 then";
      "      play item 1 of albumTracks";
      "      return " ++ q ("Playing album: " ++ safeAlbum);
      "    else";
      "      return " ++ q ("Album not found: " ++ safeAlbum);
      "    end if";
      "  on error errMsg";
      "    return " ++ q "Error: " ++ " & errMsg";
      "  end try";
      "end tell" ].

Definition play_artist_script (safeArtist : string) (shuffle : bool) : string :=
  unlines
    [ "";
      "tell application " ++ q "Music";
      "  try";
      "    set artistTracks to (every track whose artist contains " ++ q safeArtist ++ ")";
      "    if (count of artistTracks) > 0 then";
      "      " ++ (if shuffle then "set shuffle enabled to true" else "");
      "      play item 1 of artistTracks";
      "      return " ++ q ("Playing songs by: " ++ safeArtist);
      "    else";
      "      return " ++ q ("No songs found by: " ++ safeArtist);
      "    end if";
      "  on error errMsg";
      "    return " ++ q "Error: " ++ " & errMsg";
      "  end try";
      "end tell" ].

Definition add_to_queue_script (safeSong : string) (safeArtist : option string) : string :=
  unlines
    [ "";
      "tell application " ++ q "Music";
      "  try";
      "    " ++ matching_tracks_stmt safeSong safeArtist;
      "    if (count of matchingTracks) > 0 then";
      "      set t to item 1 of matchingTracks";
      "      return " ++ q "Found: " ++ " & name of t & " ++ q " - " ++ " & artist of t & "
        ++ q "\nNote: Direct queue manipulation requires manual action in Music app";
      "    else";
      "      return " ++ q ("Song not found: " ++ safeSong);
      "    end if";
      "  on error errMsg";
      "    return " ++ q "Error: " ++ " & errMsg";
      "  end try";
      "end tell" ].

Definition love_track_script : string :=
  unlines
    [ "";
      "tell application " ++ q "Music";
      "  if player state is not stopped then";
      "    set loved of current track to true";
      "    return " ++ q "Loved: " ++ " & name of current track";
      "  else";
      "    return " ++ q "No track is playing";
      "  end if";
      "end tell" ].

Definition dislike_track_script : string :=
  unlines
    [ "";
      "tell application " ++ q "Music";
      "  if player state is not stopped then";
      "    set disliked of current track to true";
      "    return " ++ q "Disliked: " ++ " & name of current track";
      "  else";
      "    return " ++ q "No track is playing";
      "  end if";
      "end tell" ].

(** [mode === 'off' ? 'off' : mode === 'one' ? 'one' : 'all'] *)
Definition repeatValue (mode : option string) : string :=
  match mode with
  | Some m => if m =? "off" then "off" else if m =? "one" then "one" else "all"
  | None => "all"
  end.

(** The script of the search branch: [None] is the early return of the last
    [else], taken before any script is run. *)
Definition search_script (searchType safeQuery : string) (limit : Z) : option string :=
  if (searchType =? "songs") || (searchType =? "all") then
    Some (search_songs_script safeQuery limit)
  else if searchType =? "albums" then
    Some (search_albums_script safeQuery limit)
  else if searchType =? "artists" then
    Some (search_artists_script safeQuery limit)
  else None.

(* ================================================================= *)
(** ** The call-tool handler *)

Section Server.

(** [child_process.execSync], with the options of the source (UTF-8 text,
    a 50 MiB buffer): the captured output, or a thrown error. *)
Variable execSync : string -> JsError + string.

Definition exec (cmd : string) : M string :=
  fun l =>
    match execSync cmd with
    | inr out => ((l ++ [cmd])%list, inr out)
    | inl e => ((l ++ [cmd])%list, inl e)
    end.

Definition rethrowAppleScript {A : Type} (err : JsError) : M A :=
  throw (Error ("AppleScript error: " ++ stderr_or_message err)).

Definition runAppleScript (script : string) : M string :=
  try_catch
    (out <- exec (commandSingle script) ;; ret (trim out))
    (fun err => rethrowAppleScript err).

Definition runAppleScriptMulti (script : string) : M string :=
  try_catch
    (out <- exec (commandMulti script) ;; ret (trim out))
    (fun err => rethrowAppleScript err).

(** [x.replace(/"/g, '\\"')] on a property that may be absent: the method
    call on [undefined] throws a [TypeError]. *)
Definition replaceQuotes (o : option string) : M string :=
  match o with
  | Some s => ret (escapeQuotes s)
  | None => throw (TypeError_undefined "replace")
  end.

(** [artist ? artist.replace(/"/g, '\\"') : null] *)
Definition safeOptional (o : option string) : option string :=
  if truthy o then option_map escapeQuotes o else None.

Definition music_play (args : Args) : M CallToolResult :=
  runAppleScript (tellMusic "play") ;;;
  ret (okResult "Playback started").

Definition music_pause (args : Args) : M CallToolResult :=
  runAppleScript (tellMusic "pause") ;;;
  ret (okResult "Playback paused").

Definition music_stop (args : Args) : M CallToolResult :=
  runAppleScript (tellMusic "stop") ;;;
  ret (okResult "Playback stopped").

Definition music_next (args : Args) : M CallToolResult :=
  runAppleScript (tellMusic "next track") ;;;
  ret (okResult "Skipped to next track").

Definition music_previous (args : Args) : M CallToolResult :=
  runAppleScript (tellMusic "previous track") ;;;
  ret (okResult "Went to previous track").

Definition music_toggle_playback (args : Args) : M CallToolResult :=
  runAppleScript (tellMusic "playpause") ;;;
  ret (okResult "Toggled playback").

Definition music_get_current_track (args : Args) : M CallToolResult :=
  result <- runAppleScriptMulti current_track_script ;;
  ret (okResult result).

Definition music_get_player_state (args : Args) : M CallToolResult :=
  result <- runAppleScript (tellMusic "return player state as string") ;;
  ret (okResult ("Player state: " ++ result)).

Definition music_get_volume (args : Args) : M CallToolResult :=
  result <- runAppleScript (tellMusic "return sound volume") ;;
  ret (okResult ("Volume: " ++ result ++ "%")).

Definition music_set_volume (args : Args) : M CallToolResult :=
  let volume := Math_max (Num 0) (Math_min (Num 100) (toNumber (volume args))) in
  runAppleScript (tellMusic ("set sound volume to " ++ Number_toString volume)) ;;;
  ret (okResult ("Volume set to " ++ Number_toString volume ++ "%")).

Definition music_get_position (args : Args) : M CallToolResult :=
  result <- runAppleScript (tellMusic "return player position") ;;
  ret (okResult ("Position: " ++ result ++ " seconds")).

Definition music_set_position (args : Args) : M CallToolResult :=
  let position := position args in
  runAppleScript
    (tellMusic ("set player position to " ++ interpolate Z_toString position)) ;;;
  ret (okResult ("Position set to " ++ interpolate Z_toString position ++ " seconds")).

Definition music_get_shuffle (args : Args) : M CallToolResult :=
  result <- runAppleScript (tellMusic "return shuffle enabled") ;;
  ret (okResult ("Shuffle: " ++ (if result =? "true" then "on" else "off"))).

Definition music_set_shuffle (args : Args) : M CallToolResult :=
  let enabled := enabled args in
  runAppleScript
    (tellMusic ("set shuffle enabled to " ++ interpolate Boolean_toString enabled)) ;;;
  ret (okResult ("Shuffle " ++ (if truthyBool enabled then "enabled" else "disabled"))).

Definition music_get_repeat (args : Args) : M CallToolResult :=
  result <- runAppleScript (tellMusic "return song repeat as string") ;;
  ret (okResult ("Repeat mode: " ++ result)).

Definition music_set_repeat (args : Args) : M CallToolResult :=
  let mode := mode args in
  runAppleScript (tellMusic ("set song repeat to " ++ repeatValue mode)) ;;;
  ret (okResult ("Repeat mode set to " ++ interpolate (fun s => s) mode)).

Definition music_get_playlists (args : Args) : M CallToolResult :=
  result <- runAppleScriptMulti playlists_script ;;
  ret (okResult ("Playlists:" ++ nl ++ result)).

Definition music_get_playlist_tracks (args : Args) : M CallToolResult :=
  let limit := withDefault 50%Z (limit args) in
  safeName <- replaceQuotes (playlist args) ;;
  result <- runAppleScriptMulti (playlist_tracks_script safeName limit) ;;
  ret (okResult result).

Definition music_play_playlist (args : Args) : M CallToolResult :=
  let shuffle := withDefault false (shuffle args) in
  safeName <- replaceQuotes (playlist args) ;;
  result <- runAppleScriptMulti (play_playlist_script safeName shuffle) ;;
  ret (okResult result).

Definition music_search_library (args : Args) : M CallToolResult :=
  let searchType := withDefault "all" (searchType args) in
  let limit := withDefault 20%Z (limit args) in
  safeQuery <- replaceQuotes (query args) ;;
  match search_script searchType safeQuery limit with
  | Some script =>
      result <- runAppleScriptMulti script ;;
      ret (okResult result)
  | None => ret (errResult "Invalid search type")
  end.

Definition music_play_song (args : Args) : M CallToolResult :=
  safeSong <- replaceQuotes (song args) ;;
  let safeArtist := safeOptional (artist args) in
  result <- runAppleScriptMulti (play_song_script safeSong safeArtist) ;;
  ret (okResult result).

Definition music_play_album (args : Args) : M CallToolResult :=
  safeAlbum <- replaceQuotes (album args) ;;
  let safeArtist := safeOptional (artist args) in
  result <- runAppleScriptMulti (play_album_script safeAlbum safeArtist) ;;
  ret (okResult result).

Definition music_play_artist (args : Args) : M CallToolResult :=
  let shuffle := withDefault true (shuffle args) in
  safeArtist <- replaceQuotes (artist args) ;;
  result <- runAppleScriptMulti (play_artist_script safeArtist shuffle) ;;
  ret (okResult result).

Definition music_add_to_queue (args : Args) : M CallToolResult :=
  safeSong <- replaceQuotes (song args) ;;
  let safeArtist := safeOptional (artist args) in
  result <- runAppleScriptMulti (add_to_queue_script safeSong safeArtist) ;;
  ret (okResult result).

Definition music_love_track (args : Args) : M CallToolResult :=
  result <- runAppleScriptMulti love_track_script ;;
  ret (okResult result).

Definition music_dislike_track (args : Args) : M CallToolResult :=
  result <- runAppleScriptMulti dislike_track_script ;;
  ret (okResult result).

Definition music_open (args : Args) : M CallToolResult :=
  runAppleScript (tellMusic "activate") ;;;
  ret (okResult "Music app opened").

Definition music_quit (args : Args) : M CallToolResult :=
  runAppleScript (tellMusic "quit") ;;;
  ret (okResult "Music app closed").

(** The [case] clauses of the [switch], in source order: label and body. *)
Definition cases : list (string * (Args -> M CallToolResult)) :=
  [ ("music_play", music_play);
    ("music_pause", music_pause);
    ("music_stop", music_stop);
    ("music_next", music_next);
    ("music_previous", music_previous);
    ("music_toggle_playback", music_toggle_playback);
    ("music_get_current_track", music_get_current_track);
    ("music_get_player_state", music_get_player_state);
    ("music_get_volume", music_get_volume);
    ("music_set_volume", music_set_volume);
    ("music_get_position", music_get_position);
    ("music_set_position", music_set_position);
    ("music_get_shuffle", music_get_shuffle);
    ("music_set_shuffle", music_set_shuffle);
    ("music_get_repeat", music_get_repeat);
    ("music_set_repeat", music_set_repeat);
    ("music_get_playlists", music_get_playlists);
    ("music_get_playlist_tracks", music_get_playlist_tracks);
    ("music_play_playlist", music_play_playlist);
    ("music_search_library", music_search_library);
    ("music_play_song", music_play_song);
    ("music_play_album", music_play_album);
    ("music_play_artist", music_play_artist);
    ("music_add_to_queue", music_add_to_queue);
    ("music_love_track", music_love_track);
    ("music_dislike_track", music_dislike_track);
    ("music_open", music_open);
    ("music_quit", music_quit) ].

(** The clause a name selects: the first whose label is strictly equal to
    it, or none, in which case the [default] clause runs. *)
Definition selectCase (name : string) : option (string * (Args -> M CallToolResult)) :=
  find (fun c => name =? fst c) cases.

Definition defaultCase (name : string) : M CallToolResult :=
  ret (errResult ("Unknown tool: " ++ name)).

(** The [switch (name)] statement inside the [try] block. *)
Definition switch (name : string) (args : Args) : M CallToolResult :=
  match selectCase name with
  | Some c => snd c args
  | None => defaultCase name
  end.

(** The [catch (error)] clause; every thrown value of the model is an
    [Error] instance, so the text is built from its [message]. *)
Definition catchClause (error : JsError) : M CallToolResult :=
  ret (errResult ("Error: " ++ message error)).

(** The body of the handler: what it logs and what it returns or throws. *)
Definition handler (name : string) (args : Args) : M CallToolResult :=
  try_catch (switch name args) catchClause.

(** One call, started with an empty log: the commands handed to
    [execSync] and the outcome seen by the caller ([inl] would be an
    exception escaping the handler). *)
Definition callTool (name : string) (args : Args) : Log * (JsError + CallToolResult) :=
  handler name args [].

Definition commandsOf (name : string) (args : Args) : Log :=
  fst (callTool name args).

End Server.

(* ================================================================= *)
(** ** Predicates used by the statements *)

(** [occurs x s]: [x] is a contiguous part of [s]
    (what [expect.stringContaining] tests). *)
Definition occurs (x s : string) : Prop :=
  exists pre post, s = pre ++ x ++ post.

(** The body of a double-quoted shell literal, read left to right: a
    backslash takes the next character with it; a quote met outside such a
    pair would end the literal. [quotesEscaped body] holds when no quote of
    [body] is bare and [body] does not end in a pending backslash. *)
Fixpoint scanQuoted (pending : bool) (s : string) : bool :=
  match s with
  | EmptyString => negb pending
  | String c r =>
      if pending then scanQuoted false r
      else if Ascii.eqb c backslash then scanQuoted true r
      else if Ascii.eqb c dquote then false
      else scanQuoted false r
  end.

Definition quotesEscaped (body : string) : bool := scanQuoted false body.

(** The decision of [occurs], for closed texts. *)
Fixpoint occursb (x s : string) : bool :=
  match s with
  | EmptyString => String.prefix x s
  | String _ r => String.prefix x s || occursb x r
  end.

(** The guard that turns an empty text into a message: [is "" then]. *)
Definition emptyGuard : string := "is " ++ q "" ++ " then".

(** The string-valued property [p] of an argument object. *)
Definition stringArg (args : Args) (p : string) : option string :=
  if p =? "mode" then mode args
  else if p =? "playlist" then playlist args
  else if p =? "query" then query args
  else if p =? "searchType" then searchType args
  else if p =? "song" then song args
  else if p =? "album" then album args
  else if p =? "artist" then artist args
  else None.

(** A free-text parameter of the registry: typed [string], with no [enum]. *)
Definition isFreeText (p : Property) : bool :=
  (ptype p =? "string") &&
  match enum p with
  | None => true
  | Some _ => false
  end.




Section Outcome.

Variable execSync : string -> JsError + string.

(** What a script run leaves behind: the command in the log, and either
    the trimmed output or the re-thrown [AppleScript error]. *)
Definition outcomeOf (cmd : string) : JsError + string :=
  match execSync cmd with
  | inr out => inr (trim out)
  | inl e => inl (Error ("AppleScript error: " ++ stderr_or_message e))
  end.

(** A branch that runs one script and wraps its output with [k]. *)
Definition runs (cmd : string) (k : string -> CallToolResult) : M CallToolResult :=
  fun l =>
    ((l ++ [cmd])%list,
     match outcomeOf cmd with
     | inr result => inr (k result)
     | inl e => inl e
     end).

(** The three ways a [case] clause can go: it throws before any command,
    it returns the validation error before any command, or it hands one
    command to the executor and wraps the trimmed output. *)
Inductive Shape (b : M CallToolResult) : Prop :=
| ShapeThrows (e : JsError) :
    (forall l, b l = (l, inl e)) -> Shape b
| ShapeRejects :
    (forall l, b l = (l, inr (errResult "Invalid search type"))) -> Shape b
| ShapeRuns (cmd : string) (k : string -> string) :
    (forall l, b l = runs cmd (fun result => okResult (k result)) l) ->
    (exists script, cmd = commandSingle script \/ cmd = commandMulti script) ->
    Shape b.

(** What a call leaves behind when its clause runs one multi-line script
    and returns the trimmed output as it is. *)
Definition ranMulti (script : string) : Log * (JsError + CallToolResult) :=
  ([commandMulti script],
   match execSync (commandMulti script) with
   | inr out => inr (okResult (trim out))
   | inl e => inr (errResult ("Error: AppleScript error: " ++ stderr_or_message e))
   end).

(** What a call leaves behind when a required free-text property is
    absent: the [TypeError] of the method call, caught by the handler. *)
Definition missingText : Log * (JsError + CallToolResult) :=
  ([], inr (errResult ("Error: " ++ message (TypeError_undefined "replace")))).

(** Every command of the call runs a script in which [v] stands escaped. *)
Definition writesEscaped (name : string) (args : Args) (v : string) : Prop :=
  forall cmd,
    In cmd (commandsOf execSync name args) ->
    exists script, cmd = commandMulti script /\ occurs (escapeQuotes v) script.

End Outcome.

(* ================================================================= *)
(** ** The loops the scripts spell

    The scripts are source text too. Their [repeat] loops are read here as
    functions over the collection the player hands to the loop; the text a
    script returns is the concatenation of the lines it has appended, or the
    message of its [if ... is "" then] guard. *)

Module Script.

Record Track : Type := mkTrack {
  trackName : string;
  trackArtist : string;
  trackAlbum : string;
  trackAlbumArtist : string
}.

Definition render (lines : list string) : string := String.concat "" lines.

(** [set playlistNames to playlistNames & name of p & "\n"] for every
    playlist; the escape in the literal is a line feed. *)
Definition playlists_lines (playlists : list string) : list string :=
  fold_left (fun lines p => app lines [p ++ nl]) playlists [].

Definition playlists_result (playlists : list string) : string :=
  render (playlists_lines playlists).

(** [if count < limit then (append a line; count + 1)] *)
Definition emit (limit : Z) (line : Track -> string)
    (st : list string * Z) (t : Track) : list string * Z :=
  let '(lines, count) := st in
  if (count <? limit)%Z then (app lines [line t], (count + 1)%Z) else st.

Definition capped_lines (limit : Z) (line : Track -> string) (ts : list Track) : list string :=
  fst (fold_left (emit limit line) ts ([], 0%Z)).

Definition guarded (lines : list string) (emptyMessage : string) : string :=
  if render lines =? "" then emptyMessage else render lines.

(** [name of t & " - " & artist of t & "\n"] *)
Definition playlistLine (t : Track) : string :=
  trackName t ++ " - " ++ trackArtist t ++ nl.

(** [name of t & " - " & artist of t & " (" & album of t & ")\n"] *)
Definition songLine (t : Track) : string :=
  trackName t ++ " - " ++ trackArtist t ++ " (" ++ trackAlbum t ++ ")" ++ nl.

Definition playlist_tracks_result (tracks : list Track) (limit : Z) : string :=
  guarded (capped_lines limit playlistLine tracks) "Playlist is empty".

Definition search_songs_result (matches : list Track) (limit : Z) (shown : string) : string :=
  guarded (capped_lines limit songLine matches) ("No results found for: " ++ shown).

Section Dedup.

(** AppleScript's text comparison behind [is not in]. *)
Variable textEq : string -> string -> bool.

(** [if count < limit then if key is not in seen then
     (append key to seen; append a line; count + 1)] *)
Definition emitNew (limit : Z) (key : Track -> string)
    (st : list string * Z) (t : Track) : list string * Z :=
  let '(seen, count) := st in
  if (count <? limit)%Z then
    if existsb (textEq (key t)) seen then st
    else (app seen [key t], (count + 1)%Z)
  else st.

(** The keys kept by the loop, in order; the line of a key is the key
    followed by a line feed. *)
Definition dedup_keys (limit : Z) (key : Track -> string) (ts : list Track) : list string :=
  fst (fold_left (emitNew limit key) ts ([], 0%Z)).

Definition albumKey (t : Track) : string :=
  trackAlbum t ++ " - " ++ trackAlbumArtist t.

Definition search_albums_result (matches : list Track) (limit : Z) (shown : string) : string :=
  guarded (map (fun k => k ++ nl) (dedup_keys limit albumKey matches))
    ("No albums found for: " ++ shown).

Definition search_artists_result (matches : list Track) (limit : Z) (shown : string) : string :=
  guarded (map (fun k => k ++ nl) (dedup_keys limit trackArtist matches))
    ("No artists found for: " ++ shown).

(** No key of the list is equal, for [textEq], to an earlier one. *)
Fixpoint distinct (keys : list string) : Prop :=
  match keys with
  | [] => True
  | k :: rest => (forall k', In k' rest -> textEq k' k = false) /\ distinct rest
  end.

End Dedup.

End Script.

(* ================================================================= *)
(** ** Concrete executors and argument objects *)

(** A concrete executor for closed instances: every command succeeds and
    prints nothing. *)
Definition silentExec : string -> JsError + string := fun _ => inr "".

(** An executor that fails as in the test of the repository: the thrown
    error carries a [stderr]. *)
Definition failingExec : string -> JsError + string :=
  fun _ =>
    inl (mkError "Command failed"
           (Some "AppleScript execution error: Music is not running")).

Definition argsVolume (v : Z) : Args :=
  mkArgs (Some v) None None None None None None None None None None None.

Definition argsMode (m : string) : Args :=
  mkArgs None None None (Some m) None None None None None None None None.

Definition argsPlaylist (p : string) : Args :=
  mkArgs None None None None (Some p) None None None None None None None.

(** The playlist name of the regression test: Test "Playlist". *)
Definition quotedName : string := "Test " ++ q "Playlist".


Definition argsSearch (qy : string) (st : option string) : Args :=
  mkArgs None None None None None None None (Some qy) st None None None.

(** The executor of a library that holds no playlist: the script of the
    listing returns the text its loop has built, which is empty. *)
Definition emptyLibraryExec : string -> JsError + string :=
  fun _ => inr (Script.playlists_result []).

(** An executor whose error carries no [stderr]. *)
Definition bareFailingExec : string -> JsError + string :=
  fun _ => inl (Error "Command failed without stderr").

From Stdlib Require DecimalZ DecimalPos.

(* ================================================================= *)
(** ** How the shell and the player read what the helpers write

    The command string goes to a POSIX shell, which takes the word after
    [osascript -e] apart by its quoting rules; the script then goes to the
    player, which reads each string literal by AppleScript's rules. Both
    readers are written out here for the texts the helpers produce. *)

Inductive QuoteState : Type :=
| Unquoted
| InSingle
| InDouble.

Definition dollar : ascii := "036"%char.
Definition backquote : ascii := "096"%char.

Definition consOpt (c : ascii) (o : option string) : option string :=
  option_map (String c) o.

(** The value of one shell word made of quoted segments, for the words
    this reader covers. Inside single quotes every character stands for
    itself. Inside double quotes a backslash keeps its meaning before a
    backslash, a quote, a dollar sign or a backquote, and hides a line feed.
    A dollar sign or a backquote that is not behind a backslash is where the
    shell may start an expansion: such a word is left unread ([None]), also
    when a shell would keep the dollar sign as it is. Outside quotes only
    the opening of a quoted segment is read. A word that ends inside a
    segment has no value. *)
Fixpoint shellWord (st : QuoteState) (s : string) : option string :=
  match s with
  | EmptyString =>
      match st with
      | Unquoted => Some EmptyString
      | _ => None
      end
  | String c r =>
      match st with
      | InSingle =>
          if Ascii.eqb c squote then shellWord Unquoted r
          else consOpt c (shellWord InSingle r)
      | InDouble =>
          if Ascii.eqb c dquote then shellWord Unquoted r
          else if Ascii.eqb c backslash then
            match r with
            | EmptyString => None
            | String d r' =>
                if Ascii.eqb d backslash || Ascii.eqb d dquote
                   || Ascii.eqb d dollar || Ascii.eqb d backquote
                then consOpt d (shellWord InDouble r')
                else if Ascii.eqb d LF then shellWord InDouble r'
                else consOpt c (consOpt d (shellWord InDouble r'))
            end
          else if Ascii.eqb c dollar || Ascii.eqb c backquote then None
          else consOpt c (shellWord InDouble r)
      | Unquoted =>
          if Ascii.eqb c squote then shellWord InSingle r
          else if Ascii.eqb c dquote then shellWord InDouble r
          else None
      end
  end.

(** A text with no dollar sign and no backquote. *)
Fixpoint noExpansion (s : string) : bool :=
  match s with
  | EmptyString => true
  | String c r =>
      negb (Ascii.eqb c dollar || Ascii.eqb c backquote) && noExpansion r
  end.

(** The character an AppleScript escape stands for. *)
Definition unescapeChar (d : ascii) : option ascii :=
  if Ascii.eqb d dquote then Some dquote
  else if Ascii.eqb d backslash then Some backslash
  else if Ascii.eqb d "n"%char then Some LF
  else if Ascii.eqb d "r"%char then Some "013"%char
  else if Ascii.eqb d "t"%char then Some "009"%char
  else None.

(** An AppleScript string literal, read from the character after its
    opening quote: the text it denotes and what follows its closing quote. *)
Fixpoint readLiteral (s : string) : option (string * string) :=
  match s with
  | EmptyString => None
  | String c r =>
      if Ascii.eqb c dquote then Some (EmptyString, r)
      else if Ascii.eqb c backslash then
        match r with
        | EmptyString => None
        | String d r' =>
            match unescapeChar d, readLiteral r' with
            | Some x, Some (v, rest) => Some (String x v, rest)
            | _, _ => None
            end
        end
      else
        match readLiteral r with
        | Some (v, rest) => Some (String c v, rest)
        | None => None
        end
  end.

(** A text with no backslash. *)
Fixpoint noBackslash (s : string) : bool :=
  match s with
  | EmptyString => true
  | String c r => negb (Ascii.eqb c backslash) && noBackslash r
  end.

(** Argument objects that differ in the artist. *)
Definition set_artist (o : option string) (a : Args) : Args :=
  mkArgs (volume a) (position a) (enabled a) (mode a) (playlist a) (limit a)
    (shuffle a) (query a) (searchType a) (song a) (album a) o.

Definition argsPosition (p : Z) : Args :=
  mkArgs None (Some p) None None None None None None None None None None.

Definition argsSong (s : string) (a : option string) : Args :=
  mkArgs None None None None None None None None None (Some s) None a.

Definition argsArtistOnly (a : string) : Args :=
  mkArgs None None None None None None None None None None None (Some a).

(** Two tracks of one album. *)
Definition twoTracksOneAlbum : list Script.Track :=
  [ Script.mkTrack "Come Together" "The Beatles" "Abbey Road" "The Beatles";
    Script.mkTrack "Something" "The Beatles" "Abbey Road" "The Beatles" ].

(** A search call that gives a search type and no query. *)
Definition argsSearchTypeOnly (st : string) : Args :=
  mkArgs None None None None None None None None (Some st) None None None.

(* ================================================================= *)
(** ** A request without arguments

    When the request carries no [arguments], [args] is [undefined] in the
    handler. A clause that never looks at [args] runs as usual; every other
    clause starts by reading a property of [args] or by destructuring it,
    and that throws inside the [try] block. *)



Section Request.

Variable execSync : string -> JsError + string.



End Request.

(** The largest safe integer, [Number.MAX_SAFE_INTEGER]. *)
Definition maxSafeInteger : Z := 9007199254740991.

(* ================================================================= *)
(** ** Strings: concatenation, occurrence, escaping *)

Lemma append_nil_r (s : string) : s ++ "" = s.
Proof. induction s as [|c s IH]; simpl; [reflexivity | now rewrite IH]. Qed.

Lemma append_assoc (a b c : string) : (a ++ b) ++ c = a ++ b ++ c.
Proof. induction a as [|x a IH]; simpl; [reflexivity | now rewrite IH]. Qed.

Lemma length_append (a b : string) :
  String.length (a ++ b) = String.length a + String.length b.
Proof. induction a as [|x a IH]; simpl; [reflexivity | now rewrite IH]. Qed.

Lemma replaceAll_app (c : ascii) (rep a b : string) :
  replaceAll c rep (a ++ b) = replaceAll c rep a ++ replaceAll c rep b.
Proof.
  induction a as [|x a IH]; simpl; [reflexivity|].
  now rewrite IH, append_assoc.
Qed.

Lemma escapeMulti_app (a b : string) :
  escapeMulti (a ++ b) = escapeMulti a ++ escapeMulti b.
Proof. unfold escapeMulti. now rewrite !replaceAll_app. Qed.


Lemma occurs_refl (x : string) : occurs x x.
Proof. exists "", "". simpl. now rewrite append_nil_r. Qed.

Lemma occurs_app_l (x a b : string) : occurs x a -> occurs x (a ++ b).
Proof.
  intros (pre & post & ->). exists pre, (post ++ b).
  now rewrite !append_assoc.
Qed.

Lemma occurs_app_r (x a b : string) : occurs x b -> occurs x (a ++ b).
Proof.
  intros (pre & post & ->). exists (a ++ pre), post.
  now rewrite !append_assoc.
Qed.

Lemma occurs_concat (sep x e : string) (l : list string) :
  In e l -> occurs x e -> occurs x (String.concat sep l).
Proof.
  induction l as [|a l IH]; [contradiction|].
  intros [->|Hin] Hx.
  - destruct l; simpl; [assumption | now apply occurs_app_l].
  - destruct l as [|b l]; [contradiction|].
    change (String.concat sep (a :: b :: l))
      with (a ++ sep ++ String.concat sep (b :: l)).
    apply occurs_app_r, occurs_app_r. now apply IH.
Qed.

Lemma occurs_escapeMulti (x s : string) :
  occurs x s -> occurs (escapeMulti x) (escapeMulti s).
Proof.
  intros (pre & post & ->). exists (escapeMulti pre), (escapeMulti post).
  now rewrite !escapeMulti_app.
Qed.

Lemma occurs_q (x s : string) : occurs x s -> occurs x (q s).
Proof. intros H. unfold q. now apply occurs_app_r, occurs_app_l. Qed.


Lemma escapeMulti_cons (a : ascii) (r : string) :
  escapeMulti (String a r) =
  (if Ascii.eqb a backslash then bs ++ bs
   else if Ascii.eqb a dquote then bs ++ dq
   else str1 a) ++ escapeMulti r.
Proof.
  unfold escapeMulti. simpl replaceAll at 2.
  rewrite replaceAll_app. f_equal.
  destruct (Ascii.eqb a backslash) eqn:Hb.
  - reflexivity.
  - simpl. destruct (Ascii.eqb a dquote); reflexivity.
Qed.

Lemma escapeMulti_quotesEscaped (s : string) :
  quotesEscaped (escapeMulti s) = true.
Proof.
  unfold quotesEscaped.
  induction s as [|a r IH]; [reflexivity|].
  rewrite escapeMulti_cons.
  destruct (Ascii.eqb a backslash) eqn:Hb.
  - exact IH.
  - destruct (Ascii.eqb a dquote) eqn:Hq.
    + exact IH.
    + simpl. rewrite Hb, Hq. exact IH.
Qed.

(** The per-script replacement leaves backslashes alone (the multi-line
    helper doubles them afterwards). *)
Lemma escapeQuotes_cons (a : ascii) (r : string) :
  escapeQuotes (String a r) =
  (if Ascii.eqb a dquote then bs ++ dq else str1 a) ++ escapeQuotes r.
Proof. reflexivity. Qed.

Lemma prefix_append (x post : string) : String.prefix x (x ++ post) = true.
Proof.
  induction x as [|c x IH]; simpl.
  - now destruct post.
  - destruct (ascii_dec c c) as [_|Hne]; [exact IH | now elim Hne].
Qed.

Lemma occursb_prefix (x s : string) : String.prefix x s = true -> occursb x s = true.
Proof.
  intros H. destruct s; cbn [occursb]; [exact H | now rewrite H].
Qed.

Lemma occursb_complete (x s : string) : occurs x s -> occursb x s = true.
Proof.
  intros (pre & post & ->). induction pre as [|c pre IH].
  - apply occursb_prefix. simpl. apply prefix_append.
  - simpl. rewrite IH. apply orb_true_r.
Qed.

Lemma not_occurs (x s : string) : occursb x s = false -> ~ occurs x s.
Proof. intros H Ho. apply occursb_complete in Ho. congruence. Qed.

Lemma occurs_empty (s : string) : occurs "" s.
Proof. now exists "", s. Qed.

Lemma occurs_unlines (x e : string) (n : nat) (ls : list string) :
  nth_error ls n = Some e -> occurs x e -> occurs x (unlines ls).
Proof.
  intros Hn Hx. unfold unlines.
  apply occurs_concat with (e := e); [|exact Hx].
  eapply nth_error_In; eassumption.
Qed.

(** Finds [x] inside a line built with [++] and [q]. *)
Ltac occ :=
  first
    [ apply occurs_refl
    | apply occurs_q; occ
    | apply occurs_app_l; occ
    | apply occurs_app_r; occ ].

(** Finds [x] in line [n] of a template. *)
Ltac occ_line n :=
  eapply (occurs_unlines _ _ n); [reflexivity | occ].

(** The repeat token. *)
Lemma repeatValue_closed (mode : option string) :
  In (repeatValue mode) ["off"; "one"; "all"].
Proof.
  unfold repeatValue. destruct mode as [m|]; simpl; [|tauto].
  destruct (m =? "off"); [tauto|]. destruct (m =? "one"); tauto.
Qed.

Lemma repeatValue_other (m : string) :
  m <> "off" -> m <> "one" -> repeatValue (Some m) = "all".
Proof.
  intros Hoff Hone. unfold repeatValue.
  apply String.eqb_neq in Hoff, Hone. now rewrite Hoff, Hone.
Qed.

(* ================================================================= *)
(** ** Running a script *)

Section Run.

Variable execSync : string -> JsError + string.


Lemma runAppleScript_run (script : string) (l : Log) :
  runAppleScript execSync script l =
  ((l ++ [commandSingle script])%list, outcomeOf execSync (commandSingle script)).
Proof.
  unfold runAppleScript, try_catch, bind, exec, outcomeOf.
  destruct (execSync (commandSingle script)); reflexivity.
Qed.

Lemma runAppleScriptMulti_run (script : string) (l : Log) :
  runAppleScriptMulti execSync script l =
  ((l ++ [commandMulti script])%list, outcomeOf execSync (commandMulti script)).
Proof.
  unfold runAppleScriptMulti, try_catch, bind, exec, outcomeOf.
  destruct (execSync (commandMulti script)); reflexivity.
Qed.


Lemma bind_runAppleScript (script : string) (k : string -> CallToolResult) (l : Log) :
  (result <- runAppleScript execSync script ;; ret (k result)) l =
  runs execSync (commandSingle script) k l.
Proof.
  unfold bind, runs. rewrite runAppleScript_run.
  destruct (outcomeOf execSync (commandSingle script)); reflexivity.
Qed.

Lemma bind_runAppleScriptMulti (script : string) (k : string -> CallToolResult) (l : Log) :
  (result <- runAppleScriptMulti execSync script ;; ret (k result)) l =
  runs execSync (commandMulti script) k l.
Proof.
  unfold bind, runs. rewrite runAppleScriptMulti_run.
  destruct (outcomeOf execSync (commandMulti script)); reflexivity.
Qed.

End Run.

(* ================================================================= *)
(** ** The shape of every clause of the switch *)

Section Dispatch.

Variable execSync : string -> JsError + string.

Lemma bind_ret {A B : Type} (a : A) (k : A -> M B) (l : Log) :
  bind (ret a) k l = k a l.
Proof. reflexivity. Qed.

Lemma bind_throw {A B : Type} (e : JsError) (k : A -> M B) (l : Log) :
  bind (@throw A e) k l = (l, inl e).
Proof. reflexivity. Qed.

Lemma shape_single (script : string) (k : string -> string) :
  Shape execSync (result <- runAppleScript execSync script ;; ret (okResult (k result))).
Proof.
  apply ShapeRuns with (cmd := commandSingle script) (k := k).
  - intro l. apply (bind_runAppleScript execSync script (fun r => okResult (k r))).
  - exists script. now left.
Qed.

Lemma shape_multi (script : string) (k : string -> string) :
  Shape execSync (result <- runAppleScriptMulti execSync script ;; ret (okResult (k result))).
Proof.
  apply ShapeRuns with (cmd := commandMulti script) (k := k).
  - intro l. apply (bind_runAppleScriptMulti execSync script (fun r => okResult (k r))).
  - exists script. now right.
Qed.

(** A clause that first escapes a required free-text property. *)
Lemma shape_replaceQuotes (o : option string) (body : string -> M CallToolResult) :
  (forall s, Shape execSync (body s)) ->
  Shape execSync (safe <- replaceQuotes o ;; body safe).
Proof.
  intros H. destruct o as [s|].
  - destruct (H (escapeQuotes s)) as [e He | He | cmd k He Hc].
    + apply ShapeThrows with e. intro l. apply He.
    + apply ShapeRejects. intro l. apply He.
    + apply ShapeRuns with cmd k; [intro l; apply He | exact Hc].
  - apply ShapeThrows with (TypeError_undefined "replace"). reflexivity.
Qed.

Lemma cases_shape (c : string * (Args -> M CallToolResult)) (args : Args) :
  In c (cases execSync) -> Shape execSync (snd c args).
Proof.
  intros H. simpl in H.
  repeat (destruct H as [<- | H]); try contradiction; cbn [snd].
  all: try (apply shape_single).
  all: try (apply shape_multi).
  all: try (apply (shape_single _ (fun _ => _))).
  all: try (apply (shape_multi _ (fun r => r))).
  all: try (apply shape_replaceQuotes; intro s; apply (shape_multi _ (fun r => r))).
  (* music_search_library *)
  apply shape_replaceQuotes; intro s.
  destruct (search_script (withDefault "all" (searchType args)) s
              (withDefault 20%Z (limit args))) as [script|].
  - apply (shape_multi _ (fun r => r)).
  - apply ShapeRejects. reflexivity.
Qed.

Lemma find_label_none {B : Type} (name : string) (l : list (string * B)) :
  ~ In name (map fst l) -> find (fun c => name =? fst c) l = None.
Proof.
  induction l as [|c l IH]; simpl; [reflexivity|].
  intros H. destruct (String.eqb_spec name (fst c)) as [->|_].
  - exfalso. apply H. now left.
  - apply IH. intro Hin. apply H. now right.
Qed.

Lemma find_label_some {B : Type} (name : string) (l : list (string * B)) :
  In name (map fst l) -> exists c, find (fun c => name =? fst c) l = Some c.
Proof.
  induction l as [|c l IH]; simpl; [contradiction|].
  intros H. destruct (String.eqb_spec name (fst c)) as [->|Hne].
  - now exists c.
  - apply IH. destruct H as [H|H]; [congruence | exact H].
Qed.

Lemma cases_labels : map fst (cases execSync) = toolNames.
Proof. reflexivity. Qed.

Lemma selectCase_none (name : string) :
  ~ In name toolNames -> selectCase execSync name = None.
Proof. rewrite <- cases_labels. apply find_label_none. Qed.

Lemma selectCase_registered (name : string) :
  In name toolNames -> exists c, selectCase execSync name = Some c.
Proof. rewrite <- cases_labels. apply find_label_some. Qed.

Lemma selectCase_some (name : string) (c : string * (Args -> M CallToolResult)) :
  selectCase execSync name = Some c ->
  fst c = name /\ In c (cases execSync) /\ In name toolNames.
Proof.
  intros H. apply find_some in H. destruct H as [Hin Heq].
  apply String.eqb_eq in Heq. subst name. repeat split; [exact Hin|].
  rewrite <- cases_labels. now apply in_map.
Qed.

(** What one call leaves behind, by the way its clause goes. *)
Lemma callTool_default (name : string) (args : Args) :
  selectCase execSync name = None ->
  callTool execSync name args = ([], inr (errResult ("Unknown tool: " ++ name))).
Proof.
  intros H. unfold callTool, handler, try_catch, switch. now rewrite H.
Qed.

Lemma callTool_clause (name : string) (args : Args)
    (c : string * (Args -> M CallToolResult)) :
  selectCase execSync name = Some c ->
  (exists e, switch execSync name args [] = ([], inl e) /\
             callTool execSync name args = ([], inr (errResult ("Error: " ++ message e))))
  \/ (switch execSync name args [] = ([], inr (errResult "Invalid search type")) /\
      callTool execSync name args = ([], inr (errResult "Invalid search type")))
  \/ (exists cmd k,
        (exists script, cmd = commandSingle script \/ cmd = commandMulti script) /\
        switch execSync name args [] =
          ([cmd],
           match execSync cmd with
           | inr out => inr (okResult (k (trim out)))
           | inl e => inl (Error ("AppleScript error: " ++ stderr_or_message e))
           end) /\
        callTool execSync name args =
          ([cmd],
           match execSync cmd with
           | inr out => inr (okResult (k (trim out)))
           | inl e => inr (errResult ("Error: AppleScript error: " ++ stderr_or_message e))
           end)).
Proof.
  intros H. destruct (selectCase_some _ _ H) as (_ & Hin & _).
  unfold callTool, handler, try_catch, switch. rewrite H.
  destruct (cases_shape c args Hin) as [e He | He | cmd k He Hc].
  - left. exists e. now rewrite He.
  - right; left. now rewrite He.
  - right; right. exists cmd, k. split; [exact Hc|].
    rewrite He. unfold runs, outcomeOf. simpl.
    destruct (execSync cmd); split; reflexivity.
Qed.

Lemma callTool_runs (name : string) (args : Args) (cmd : string)
    (k : string -> CallToolResult) :
  (forall l, switch execSync name args l = runs execSync cmd k l) ->
  callTool execSync name args =
    ([cmd],
     match execSync cmd with
     | inr out => inr (k (trim out))
     | inl e => inr (errResult ("Error: AppleScript error: " ++ stderr_or_message e))
     end).
Proof.
  intros H. unfold callTool, handler, try_catch. rewrite H.
  unfold runs, outcomeOf. simpl. destruct (execSync cmd); reflexivity.
Qed.

Lemma callTool_throws (name : string) (args : Args) (e : JsError) :
  (forall l, switch execSync name args l = (l, inl e)) ->
  callTool execSync name args = ([], inr (errResult ("Error: " ++ message e))).
Proof.
  intros H. unfold callTool, handler, try_catch. now rewrite H.
Qed.

Lemma callTool_set_volume (args : Args) :
  let volume := Math_max (Num 0) (Math_min (Num 100) (toNumber (volume args))) in
  let cmd := commandSingle (tellMusic ("set sound volume to " ++ Number_toString volume)) in
  callTool execSync "music_set_volume" args =
    ([cmd],
     match execSync cmd with
     | inr out => inr (okResult ("Volume set to " ++ Number_toString volume ++ "%"))
     | inl e => inr (errResult ("Error: AppleScript error: " ++ stderr_or_message e))
     end).
Proof.
  intros volume cmd.
  apply (callTool_runs "music_set_volume" args cmd
           (fun _ => okResult ("Volume set to " ++ Number_toString volume ++ "%"))).
  intro l. apply (bind_runAppleScript execSync _ (fun _ => okResult _)).
Qed.

Lemma callTool_set_repeat (args : Args) :
  let cmd := commandSingle (tellMusic ("set song repeat to " ++ repeatValue (mode args))) in
  callTool execSync "music_set_repeat" args =
    ([cmd],
     match execSync cmd with
     | inr out =>
         inr (okResult ("Repeat mode set to " ++ interpolate (fun s => s) (mode args)))
     | inl e => inr (errResult ("Error: AppleScript error: " ++ stderr_or_message e))
     end).
Proof.
  intros cmd.
  apply (callTool_runs "music_set_repeat" args cmd
           (fun _ => okResult ("Repeat mode set to " ++ interpolate (fun s => s) (mode args)))).
  intro l. apply (bind_runAppleScript execSync _ (fun _ => okResult _)).
Qed.

End Dispatch.

(* ================================================================= *)
(** ** Where the escaped text stands in each template *)

Lemma playlist_tracks_script_occurs (safeName : string) (limit : Z) :
  occurs safeName (playlist_tracks_script safeName limit).
Proof. unfold playlist_tracks_script. occ_line 3. Qed.

Lemma play_playlist_script_occurs (safeName : string) (shuffle : bool) :
  occurs safeName (play_playlist_script safeName shuffle).
Proof. unfold play_playlist_script. occ_line 3. Qed.

Lemma search_songs_script_occurs (safeQuery : string) (limit : Z) :
  occurs safeQuery (search_songs_script safeQuery limit).
Proof. unfold search_songs_script. occ_line 4. Qed.

Lemma search_albums_script_occurs (safeQuery : string) (limit : Z) :
  occurs safeQuery (search_albums_script safeQuery limit).
Proof. unfold search_albums_script. occ_line 5. Qed.

Lemma search_artists_script_occurs (safeQuery : string) (limit : Z) :
  occurs safeQuery (search_artists_script safeQuery limit).
Proof. unfold search_artists_script. occ_line 5. Qed.

Lemma search_script_occurs (searchType safeQuery script : string) (limit : Z) :
  search_script searchType safeQuery limit = Some script ->
  occurs safeQuery script.
Proof.
  unfold search_script.
  destruct ((searchType =? "songs") || (searchType =? "all")).
  - intros [= <-]. apply search_songs_script_occurs.
  - destruct (searchType =? "albums").
    + intros [= <-]. apply search_albums_script_occurs.
    + destruct (searchType =? "artists"); [|discriminate].
      intros [= <-]. apply search_artists_script_occurs.
Qed.

Lemma matching_tracks_stmt_song (safeSong : string) (safeArtist : option string) :
  occurs safeSong (matching_tracks_stmt safeSong safeArtist).
Proof.
  unfold matching_tracks_stmt, ifTruthy.
  destruct safeArtist as [a|]; [destruct (a =? "")|]; occ.
Qed.

(** The optional artist: an empty or absent one is not written at all. *)
Lemma safeOptional_cases (v : string) :
  (v = "" /\ safeOptional (Some v) = None) \/
  (escapeQuotes v <> "" /\ safeOptional (Some v) = Some (escapeQuotes v)).
Proof.
  destruct v as [|c v]; [now left | right].
  split; [|reflexivity].
  rewrite escapeQuotes_cons. destruct (Ascii.eqb c dquote); discriminate.
Qed.

Lemma matching_tracks_stmt_artist (safeSong v : string) :
  occurs (escapeQuotes v) (matching_tracks_stmt safeSong (safeOptional (Some v))).
Proof.
  destruct (safeOptional_cases v) as [[-> ->] | [Hne ->]].
  - apply occurs_empty.
  - unfold matching_tracks_stmt, ifTruthy.
    apply String.eqb_neq in Hne. rewrite Hne. occ.
Qed.

Lemma play_song_script_song (safeSong : string) (safeArtist : option string) :
  occurs safeSong (play_song_script safeSong safeArtist).
Proof.
  unfold play_song_script.
  eapply occurs_unlines with (n := 3); [reflexivity|].
  apply occurs_app_r, matching_tracks_stmt_song.
Qed.

Lemma play_song_script_artist (safeSong v : string) :
  occurs (escapeQuotes v) (play_song_script safeSong (safeOptional (Some v))).
Proof.
  unfold play_song_script.
  eapply occurs_unlines with (n := 3); [reflexivity|].
  apply occurs_app_r, matching_tracks_stmt_artist.
Qed.

Lemma add_to_queue_script_song (safeSong : string) (safeArtist : option string) :
  occurs safeSong (add_to_queue_script safeSong safeArtist).
Proof.
  unfold add_to_queue_script.
  eapply occurs_unlines with (n := 3); [reflexivity|].
  apply occurs_app_r, matching_tracks_stmt_song.
Qed.

Lemma add_to_queue_script_artist (safeSong v : string) :
  occurs (escapeQuotes v) (add_to_queue_script safeSong (safeOptional (Some v))).
Proof.
  unfold add_to_queue_script.
  eapply occurs_unlines with (n := 3); [reflexivity|].
  apply occurs_app_r, matching_tracks_stmt_artist.
Qed.

Lemma play_album_script_album (safeAlbum : string) (safeArtist : option string) :
  occurs safeAlbum (play_album_script safeAlbum safeArtist).
Proof.
  unfold play_album_script.
  eapply occurs_unlines with (n := 3); [reflexivity|].
  apply occurs_app_r. unfold ifTruthy.
  destruct safeArtist as [a|]; [destruct (a =? "")|]; occ.
Qed.

Lemma play_album_script_artist (safeAlbum v : string) :
  occurs (escapeQuotes v) (play_album_script safeAlbum (safeOptional (Some v))).
Proof.
  destruct (safeOptional_cases v) as [[-> ->] | [Hne ->]].
  - apply occurs_empty.
  - unfold play_album_script.
    eapply occurs_unlines with (n := 3); [reflexivity|].
    apply occurs_app_r. unfold ifTruthy.
    apply String.eqb_neq in Hne. rewrite Hne. occ.
Qed.

Lemma play_artist_script_occurs (safeArtist : string) (shuffle : bool) :
  occurs safeArtist (play_artist_script safeArtist shuffle).
Proof. unfold play_artist_script. occ_line 3. Qed.

(** The cap of each loop carries the limit of the call. *)
Lemma playlist_tracks_script_cap (safeName : string) (limit : Z) :
  occurs ("if trackCount < " ++ Z_toString limit ++ " then")
    (playlist_tracks_script safeName limit).
Proof.
  unfold playlist_tracks_script.
  eapply occurs_unlines with (n := 7); [reflexivity|].
  apply (occurs_app_r _ "      "). apply occurs_refl.
Qed.

Lemma search_songs_script_cap (safeQuery : string) (limit : Z) :
  occurs ("if matchCount < " ++ Z_toString limit ++ " then")
    (search_songs_script safeQuery limit).
Proof.
  unfold search_songs_script.
  eapply occurs_unlines with (n := 5); [reflexivity|].
  apply (occurs_app_r _ "    "). apply occurs_refl.
Qed.

Lemma search_albums_script_cap (safeQuery : string) (limit : Z) :
  occurs ("if matchCount < " ++ Z_toString limit ++ " then")
    (search_albums_script safeQuery limit).
Proof.
  unfold search_albums_script.
  eapply occurs_unlines with (n := 6); [reflexivity|].
  apply (occurs_app_r _ "    "). apply occurs_refl.
Qed.

Lemma search_artists_script_cap (safeQuery : string) (limit : Z) :
  occurs ("if matchCount < " ++ Z_toString limit ++ " then")
    (search_artists_script safeQuery limit).
Proof.
  unfold search_artists_script.
  eapply occurs_unlines with (n := 6); [reflexivity|].
  apply (occurs_app_r _ "    "). apply occurs_refl.
Qed.

Lemma search_albums_script_dedup (safeQuery : string) (limit : Z) :
  occurs "if albumKey is not in albumList then" (search_albums_script safeQuery limit).
Proof.
  unfold search_albums_script.
  eapply occurs_unlines with (n := 8); [reflexivity|].
  apply (occurs_app_r _ "      "). apply occurs_refl.
Qed.

Lemma search_artists_script_dedup (safeQuery : string) (limit : Z) :
  occurs "if artistName is not in artistList then" (search_artists_script safeQuery limit).
Proof.
  unfold search_artists_script.
  eapply occurs_unlines with (n := 8); [reflexivity|].
  apply (occurs_app_r _ "      "). apply occurs_refl.
Qed.

(** The three search templates differ before the query is written. *)
Lemma search_scripts_distinct (safeQuery : string) (limit : Z) :
  search_songs_script safeQuery limit <> search_albums_script safeQuery limit /\
  search_songs_script safeQuery limit <> search_artists_script safeQuery limit /\
  search_albums_script safeQuery limit <> search_artists_script safeQuery limit.
Proof.
  repeat split; intro H; cbn in H; discriminate H.
Qed.

(* ================================================================= *)
(** ** The clauses that write free text into a script *)

Section Tools.

Variable execSync : string -> JsError + string.

Lemma switch_clause (name : string) (branch : Args -> M CallToolResult) :
  selectCase execSync name = Some (name, branch) ->
  forall args l, switch execSync name args l = branch args l.
Proof. intros H args l. unfold switch. now rewrite H. Qed.

Ltac clause name branch :=
  intro;
  rewrite (switch_clause name (branch execSync) eq_refl);
  unfold branch.

Ltac escaped H :=
  rewrite H; cbn [replaceQuotes]; rewrite bind_ret.

Ltac absent H :=
  rewrite H; cbn [replaceQuotes]; apply bind_throw.

Lemma callTool_get_playlist_tracks (args : Args) :
  callTool execSync "music_get_playlist_tracks" args =
    match playlist args with
    | Some p =>
        ranMulti execSync
          (playlist_tracks_script (escapeQuotes p) (withDefault 50%Z (limit args)))
    | None => missingText
    end.
Proof.
  destruct (playlist args) as [p|] eqn:Hp.
  - apply (callTool_runs execSync "music_get_playlist_tracks" args _ okResult).
    clause "music_get_playlist_tracks" music_get_playlist_tracks. escaped Hp.
    apply (bind_runAppleScriptMulti execSync _ okResult).
  - apply callTool_throws.
    clause "music_get_playlist_tracks" music_get_playlist_tracks. absent Hp.
Qed.

Lemma callTool_play_playlist (args : Args) :
  callTool execSync "music_play_playlist" args =
    match playlist args with
    | Some p =>
        ranMulti execSync
          (play_playlist_script (escapeQuotes p) (withDefault false (shuffle args)))
    | None => missingText
    end.
Proof.
  destruct (playlist args) as [p|] eqn:Hp.
  - apply (callTool_runs execSync "music_play_playlist" args _ okResult).
    clause "music_play_playlist" music_play_playlist. escaped Hp.
    apply (bind_runAppleScriptMulti execSync _ okResult).
  - apply callTool_throws.
    clause "music_play_playlist" music_play_playlist. absent Hp.
Qed.

Lemma callTool_search_library (args : Args) :
  callTool execSync "music_search_library" args =
    match query args with
    | Some qy =>
        match search_script (withDefault "all" (searchType args)) (escapeQuotes qy)
                (withDefault 20%Z (limit args)) with
        | Some script => ranMulti execSync script
        | None => ([], inr (errResult "Invalid search type"))
        end
    | None => missingText
    end.
Proof.
  destruct (query args) as [qy|] eqn:Hq.
  - destruct (search_script _ _ _) as [script|] eqn:Hs.
    + apply (callTool_runs execSync "music_search_library" args _ okResult).
      clause "music_search_library" music_search_library. escaped Hq.
      rewrite Hs. apply (bind_runAppleScriptMulti execSync _ okResult).
    + unfold callTool, handler, try_catch.
      rewrite (switch_clause "music_search_library"
                 (music_search_library execSync) eq_refl).
      unfold music_search_library. escaped Hq. now rewrite Hs.
  - apply callTool_throws.
    clause "music_search_library" music_search_library. absent Hq.
Qed.

Lemma callTool_play_song (args : Args) :
  callTool execSync "music_play_song" args =
    match song args with
    | Some s =>
        ranMulti execSync
          (play_song_script (escapeQuotes s) (safeOptional (artist args)))
    | None => missingText
    end.
Proof.
  destruct (song args) as [s|] eqn:Hs.
  - apply (callTool_runs execSync "music_play_song" args _ okResult).
    clause "music_play_song" music_play_song. escaped Hs.
    apply (bind_runAppleScriptMulti execSync _ okResult).
  - apply callTool_throws.
    clause "music_play_song" music_play_song. absent Hs.
Qed.

Lemma callTool_play_album (args : Args) :
  callTool execSync "music_play_album" args =
    match album args with
    | Some a =>
        ranMulti execSync
          (play_album_script (escapeQuotes a) (safeOptional (artist args)))
    | None => missingText
    end.
Proof.
  destruct (album args) as [a|] eqn:Ha.
  - apply (callTool_runs execSync "music_play_album" args _ okResult).
    clause "music_play_album" music_play_album. escaped Ha.
    apply (bind_runAppleScriptMulti execSync _ okResult).
  - apply callTool_throws.
    clause "music_play_album" music_play_album. absent Ha.
Qed.

Lemma callTool_play_artist (args : Args) :
  callTool execSync "music_play_artist" args =
    match artist args with
    | Some a =>
        ranMulti execSync
          (play_artist_script (escapeQuotes a) (withDefault true (shuffle args)))
    | None => missingText
    end.
Proof.
  destruct (artist args) as [a|] eqn:Ha.
  - apply (callTool_runs execSync "music_play_artist" args _ okResult).
    clause "music_play_artist" music_play_artist. escaped Ha.
    apply (bind_runAppleScriptMulti execSync _ okResult).
  - apply callTool_throws.
    clause "music_play_artist" music_play_artist. absent Ha.
Qed.

Lemma callTool_add_to_queue (args : Args) :
  callTool execSync "music_add_to_queue" args =
    match song args with
    | Some s =>
        ranMulti execSync
          (add_to_queue_script (escapeQuotes s) (safeOptional (artist args)))
    | None => missingText
    end.
Proof.
  destruct (song args) as [s|] eqn:Hs.
  - apply (callTool_runs execSync "music_add_to_queue" args _ okResult).
    clause "music_add_to_queue" music_add_to_queue. escaped Hs.
    apply (bind_runAppleScriptMulti execSync _ okResult).
  - apply callTool_throws.
    clause "music_add_to_queue" music_add_to_queue. absent Hs.
Qed.

Lemma callTool_get_playlists (args : Args) :
  callTool execSync "music_get_playlists" args =
    ([commandMulti playlists_script],
     match execSync (commandMulti playlists_script) with
     | inr out => inr (okResult ("Playlists:" ++ nl ++ trim out))
     | inl e => inr (errResult ("Error: AppleScript error: " ++ stderr_or_message e))
     end).
Proof.
  apply (callTool_runs execSync "music_get_playlists" args _
           (fun result => okResult ("Playlists:" ++ nl ++ result))).
  intro l.
  apply (bind_runAppleScriptMulti execSync _
           (fun result => okResult ("Playlists:" ++ nl ++ result))).
Qed.

(** The statement a command wraps, whatever script it runs. *)
Lemma commandMulti_sound (v script : string) :
  occurs (escapeQuotes v) script ->
  occurs (escapeMulti (escapeQuotes v)) (commandMulti script) /\
  quotesEscaped (escapeMulti script) = true.
Proof.
  intros H. split; [|apply escapeMulti_quotesEscaped].
  unfold commandMulti. apply occurs_app_r, occurs_app_r, occurs_app_l.
  now apply occurs_escapeMulti.
Qed.

Lemma writes_of_ranMulti (name : string) (args : Args) (v script : string) :
  callTool execSync name args = ranMulti execSync script ->
  occurs (escapeQuotes v) script ->
  writesEscaped execSync name args v.
Proof.
  intros Hc Ho cmd Hin. unfold commandsOf in Hin. rewrite Hc in Hin.
  destruct Hin as [<- | []]. now exists script.
Qed.

Lemma writes_of_nothing (name : string) (args : Args) (v : string)
    (out : JsError + CallToolResult) :
  callTool execSync name args = ([], out) ->
  writesEscaped execSync name args v.
Proof.
  intros Hc cmd Hin. unfold commandsOf in Hin. rewrite Hc in Hin. contradiction.
Qed.

Lemma writes_playlist_tracks (args : Args) (v : string) :
  playlist args = Some v -> writesEscaped execSync "music_get_playlist_tracks" args v.
Proof.
  intros Hv. eapply writes_of_ranMulti.
  - rewrite callTool_get_playlist_tracks, Hv. reflexivity.
  - apply playlist_tracks_script_occurs.
Qed.

Lemma writes_play_playlist (args : Args) (v : string) :
  playlist args = Some v -> writesEscaped execSync "music_play_playlist" args v.
Proof.
  intros Hv. eapply writes_of_ranMulti.
  - rewrite callTool_play_playlist, Hv. reflexivity.
  - apply play_playlist_script_occurs.
Qed.

Lemma writes_search_query (args : Args) (v : string) :
  query args = Some v -> writesEscaped execSync "music_search_library" args v.
Proof.
  intros Hv.
  pose proof (callTool_search_library args) as Hc. rewrite Hv in Hc.
  destruct (search_script _ _ _) as [script|] eqn:Hs.
  - eapply writes_of_ranMulti; [exact Hc|].
    eapply search_script_occurs; eassumption.
  - eapply writes_of_nothing; exact Hc.
Qed.

Lemma writes_play_song_song (args : Args) (v : string) :
  song args = Some v -> writesEscaped execSync "music_play_song" args v.
Proof.
  intros Hv. eapply writes_of_ranMulti.
  - rewrite callTool_play_song, Hv. reflexivity.
  - apply play_song_script_song.
Qed.

Lemma writes_play_song_artist (args : Args) (v : string) :
  artist args = Some v -> writesEscaped execSync "music_play_song" args v.
Proof.
  intros Hv. pose proof (callTool_play_song args) as Hc. rewrite Hv in Hc.
  destruct (song args) as [s|].
  - eapply writes_of_ranMulti; [exact Hc|]. apply play_song_script_artist.
  - eapply writes_of_nothing; exact Hc.
Qed.

Lemma writes_play_album_album (args : Args) (v : string) :
  album args = Some v -> writesEscaped execSync "music_play_album" args v.
Proof.
  intros Hv. eapply writes_of_ranMulti.
  - rewrite callTool_play_album, Hv. reflexivity.
  - apply play_album_script_album.
Qed.

Lemma writes_play_album_artist (args : Args) (v : string) :
  artist args = Some v -> writesEscaped execSync "music_play_album" args v.
Proof.
  intros Hv. pose proof (callTool_play_album args) as Hc. rewrite Hv in Hc.
  destruct (album args) as [s|].
  - eapply writes_of_ranMulti; [exact Hc|]. apply play_album_script_artist.
  - eapply writes_of_nothing; exact Hc.
Qed.

Lemma writes_play_artist (args : Args) (v : string) :
  artist args = Some v -> writesEscaped execSync "music_play_artist" args v.
Proof.
  intros Hv. eapply writes_of_ranMulti.
  - rewrite callTool_play_artist, Hv. reflexivity.
  - apply play_artist_script_occurs.
Qed.

Lemma writes_add_to_queue_song (args : Args) (v : string) :
  song args = Some v -> writesEscaped execSync "music_add_to_queue" args v.
Proof.
  intros Hv. eapply writes_of_ranMulti.
  - rewrite callTool_add_to_queue, Hv. reflexivity.
  - apply add_to_queue_script_song.
Qed.

Lemma writes_add_to_queue_artist (args : Args) (v : string) :
  artist args = Some v -> writesEscaped execSync "music_add_to_queue" args v.
Proof.
  intros Hv. pose proof (callTool_add_to_queue args) as Hc. rewrite Hv in Hc.
  destruct (song args) as [s|].
  - eapply writes_of_ranMulti; [exact Hc|]. apply add_to_queue_script_artist.
  - eapply writes_of_nothing; exact Hc.
Qed.

(** Every free-text parameter of the registry, on every tool that
    declares it. *)
Lemma registry_free_text (t : Tool) (p : Property) (v : string) (args : Args) :
  In t tools ->
  In p (properties t) ->
  isFreeText p = true ->
  stringArg args (pname p) = Some v ->
  writesEscaped execSync (name t) args v.
Proof.
  intros Ht Hp Hfree Hv. unfold tools in Ht. simpl in Ht.
  repeat (destruct Ht as [<- | Ht]); try contradiction; simpl in Hp;
    repeat (destruct Hp as [<- | Hp]); try contradiction;
    try discriminate Hfree; cbn in Hv; cbn [name].
  - now apply writes_playlist_tracks.
  - now apply writes_play_playlist.
  - now apply writes_search_query.
  - now apply writes_play_song_song.
  - now apply writes_play_song_artist.
  - now apply writes_play_album_album.
  - now apply writes_play_album_artist.
  - now apply writes_play_artist.
  - now apply writes_add_to_queue_song.
  - now apply writes_add_to_queue_artist.
Qed.

End Tools.

(* ================================================================= *)
(** ** The loops of the scripts *)

Section Loops.

Import Script.

Lemma emit_run (limit : Z) (line : Track -> string) (ts : list Track) :
  forall (lines : list string) (count : Z),
    count = Z.of_nat (length lines) ->
    fst (fold_left (emit limit line) ts (lines, count)) =
      (lines ++ map line (firstn (Z.to_nat limit - length lines) ts))%list.
Proof.
  induction ts as [|t ts IH]; intros lines count Hc.
  - simpl. rewrite firstn_nil. simpl. now rewrite app_nil_r.
  - cbn [fold_left emit]. destruct (count <? limit)%Z eqn:Hlt.
    + apply Z.ltb_lt in Hlt.
      rewrite IH by (rewrite length_app; simpl; lia).
      rewrite length_app. simpl length.
      replace (Z.to_nat limit - length lines)
        with (S (Z.to_nat limit - (length lines + 1))) by lia.
      simpl. now rewrite <- app_assoc.
    + apply Z.ltb_ge in Hlt.
      rewrite IH by exact Hc.
      replace (Z.to_nat limit - length lines) with 0 by lia.
      reflexivity.
Qed.

(** The capped loop keeps the lines of the first [limit] items. *)
Lemma capped_lines_firstn (limit : Z) (line : Track -> string) (ts : list Track) :
  capped_lines limit line ts = map line (firstn (Z.to_nat limit) ts).
Proof.
  unfold capped_lines. rewrite emit_run by reflexivity.
  simpl. now rewrite Nat.sub_0_r.
Qed.

Lemma capped_lines_length (limit : Z) (line : Track -> string) (ts : list Track) :
  length (capped_lines limit line ts) <= Z.to_nat limit.
Proof.
  rewrite capped_lines_firstn, length_map. apply firstn_le_length.
Qed.

Variable textEq : string -> string -> bool.

Lemma distinct_snoc (keys : list string) (k : string) :
  distinct textEq keys ->
  existsb (textEq k) keys = false ->
  distinct textEq (keys ++ [k]).
Proof.
  induction keys as [|a keys IH]; simpl.
  - intros _ _. split; [intros k' [] | exact I].
  - intros [Ha Hd] Hex. apply orb_false_iff in Hex. destruct Hex as [Hka Hex].
    split.
    + intros k' Hin. apply in_app_or in Hin. destruct Hin as [Hin | [<- | []]].
      * now apply Ha.
      * exact Hka.
    + now apply IH.
Qed.

Lemma emitNew_run (limit : Z) (key : Track -> string) (ts : list Track) :
  forall (seen : list string) (count : Z),
    count = Z.of_nat (length seen) ->
    (count <= Z.max 0 limit)%Z ->
    distinct textEq seen ->
    let seen' := fst (fold_left (emitNew textEq limit key) ts (seen, count)) in
    distinct textEq seen' /\
    (Z.of_nat (length seen') <= Z.max 0 limit)%Z /\
    (forall k, In k seen' -> In k seen \/ In k (map key ts)).
Proof.
  induction ts as [|t ts IH]; intros seen count Hc Hle Hd.
  - simpl. repeat split; [exact Hd | lia | now left].
  - cbn [fold_left emitNew]. destruct (count <? limit)%Z eqn:Hlt.
    + destruct (existsb (textEq (key t)) seen) eqn:Hex.
      * destruct (IH seen count Hc Hle Hd) as (H1 & H2 & H3).
        repeat split; [exact H1 | exact H2 |].
        intros k Hk. destruct (H3 k Hk); [now left | right; now right].
      * apply Z.ltb_lt in Hlt.
        destruct (IH (seen ++ [key t])%list (count + 1)%Z) as (H1 & H2 & H3).
        { rewrite length_app. simpl. lia. }
        { lia. }
        { now apply distinct_snoc. }
        repeat split; [exact H1 | exact H2 |].
        intros k Hk. destruct (H3 k Hk) as [Hin | Hin].
        -- apply in_app_or in Hin. destruct Hin as [Hin | [<- | []]].
           ++ now left.
           ++ right. now left.
        -- right. now right.
    + destruct (IH seen count Hc Hle Hd) as (H1 & H2 & H3).
      repeat split; [exact H1 | exact H2 |].
      intros k Hk. destruct (H3 k Hk); [now left | right; now right].
Qed.

(** The loop with the [is not in] test keeps at most [limit] keys, no
    two of them equal, each the key of a matching track. *)
Lemma dedup_keys_sound (limit : Z) (key : Track -> string) (ts : list Track) :
  length (dedup_keys textEq limit key ts) <= Z.to_nat limit /\
  distinct textEq (dedup_keys textEq limit key ts) /\
  (forall k, In k (dedup_keys textEq limit key ts) -> In k (map key ts)).
Proof.
  unfold dedup_keys.
  destruct (emitNew_run limit key ts [] 0%Z) as (H1 & H2 & H3);
    [reflexivity | lia | exact I |].
  repeat split; [lia | exact H1 |].
  intros k Hk. destruct (H3 k Hk) as [[] | Hin]. exact Hin.
Qed.

(** With nothing to loop over, each guarded script returns its message,
    and the playlist listing returns the empty text. *)
Lemma empty_collections (limit : Z) (shown : string) :
  playlist_tracks_result [] limit = "Playlist is empty" /\
  search_songs_result [] limit shown = "No results found for: " ++ shown /\
  search_albums_result textEq [] limit shown = "No albums found for: " ++ shown /\
  search_artists_result textEq [] limit shown = "No artists found for: " ++ shown /\
  playlists_result [] = "".
Proof. repeat split. Qed.

End Loops.

(** The guard for an empty text stands in the four scripts that list
    tracks, albums or artists. *)
Lemma guarded_scripts (s : string) (limit : Z) :
  occurs emptyGuard (playlist_tracks_script s limit) /\
  occurs emptyGuard (search_songs_script s limit) /\
  occurs emptyGuard (search_albums_script s limit) /\
  occurs emptyGuard (search_artists_script s limit).
Proof.
  refine (conj _ (conj _ (conj _ _))).
  - unfold playlist_tracks_script.
    eapply (occurs_unlines _ _ 12); [reflexivity|].
    apply (occurs_app_r _ "    if trackList "). apply occurs_refl.
  - unfold search_songs_script.
    eapply (occurs_unlines _ _ 10); [reflexivity|].
    apply (occurs_app_r _ "  if results "). apply occurs_refl.
  - unfold search_albums_script.
    eapply (occurs_unlines _ _ 15); [reflexivity|].
    apply (occurs_app_r _ "  if results "). apply occurs_refl.
  - unfold search_artists_script.
    eapply (occurs_unlines _ _ 15); [reflexivity|].
    apply (occurs_app_r _ "  if results "). apply occurs_refl.
Qed.

(* ================================================================= *)
(** ** Reading the quoted words back *)

Lemma shellWord_single_body (s : string) :
  shellWord InSingle (escapeSingle s ++ sq) = Some s.
Proof.
  induction s as [|c r IH]; [reflexivity|].
  unfold escapeSingle in *. cbn [replaceAll].
  rewrite append_assoc.
  remember (replaceAll squote (sq ++ dq ++ sq ++ dq ++ sq) r ++ sq) as tail.
  destruct (Ascii.eqb c squote) eqn:Hc.
  - apply Ascii.eqb_eq in Hc. subst c. cbn. now rewrite IH.
  - cbn [append str1 shellWord]. rewrite Hc. now rewrite IH.
Qed.

Lemma shellWord_double_body (s : string) :
  noExpansion s = true ->
  shellWord InDouble (escapeMulti s ++ dq) = Some s.
Proof.
  induction s as [|c r IH]; [reflexivity|].
  cbn [noExpansion]. intros H. apply andb_true_iff in H. destruct H as [Hc Hr].
  apply negb_true_iff in Hc. specialize (IH Hr).
  rewrite escapeMulti_cons, append_assoc.
  remember (escapeMulti r ++ dq) as tail.
  destruct (Ascii.eqb c backslash) eqn:Hb.
  - apply Ascii.eqb_eq in Hb. subst c. cbn. now rewrite IH.
  - destruct (Ascii.eqb c dquote) eqn:Hq.
    + apply Ascii.eqb_eq in Hq. subst c. cbn. now rewrite IH.
    + cbn [append str1 shellWord]. rewrite Hq, Hb, Hc. now rewrite IH.
Qed.


(* ================================================================= *)
(** ** The dispatcher: errors, unknown names, registry *)



(** C2: for every tool name and every argument object the call-tool handler
    returns a result and never throws: the result carries one text item; a
    failure thrown inside the switch comes back as [isError = true] with the
    text ["Error: "] followed by the failure's message; in particular, when
    the executor throws on the command it was handed, the text is
    ["Error: AppleScript error: "] followed by its [stderr], or by its
    [message] when [stderr] is absent or empty. *)
Theorem C2_call_tool_never_throws :
  forall (execSync : string -> JsError + string) (name : string) (args : Args),
    (exists r t,
        snd (callTool execSync name args) = inr r /\
        content r = [mkContent "text" t]) /\
    (forall e,
        snd (switch execSync name args []) = inl e ->
        snd (callTool execSync name args) =
          inr (mkResult [mkContent "text" ("Error: " ++ message e)] true)) /\
    (forall cmd e,
        In cmd (commandsOf execSync name args) ->
        execSync cmd = inl e ->
        snd (callTool execSync name args) =
          inr (mkResult
                 [mkContent "text" ("Error: AppleScript error: " ++ stderr_or_message e)]
                 true)).
Proof.
  intros execSync name args. split; [|split].
  - destruct (selectCase execSync name) as [c|] eqn:Hsel.
    + destruct (callTool_clause execSync name args c Hsel)
        as [(e & _ & ->) | [(_ & ->) | (cmd & k & _ & _ & ->)]].
      * now eexists _, _.
      * now eexists _, _.
      * simpl. destruct (execSync cmd); now eexists _, _.
    + rewrite (callTool_default execSync name args Hsel). now eexists _, _.
  - intros e He. unfold callTool, handler, try_catch.
    destruct (switch execSync name args []) as [l' [e'|r]]; simpl in *.
    + now inversion He.
    + discriminate.
  - intros cmd e Hin Hexec. unfold commandsOf in Hin.
    destruct (selectCase execSync name) as [c|] eqn:Hsel.
    + destruct (callTool_clause execSync name args c Hsel)
        as [(e' & _ & Hc) | [(_ & Hc) | (cmd' & k & _ & _ & Hc)]];
        rewrite Hc in *; simpl in Hin; try contradiction.
      destruct Hin as [<- | []]. simpl. now rewrite Hexec.
    + rewrite (callTool_default execSync name args Hsel) in Hin. contradiction.
Qed.

(** The two failing executions of the test suite. *)
Example failing_play :
  callTool failingExec "music_play" noArguments =
    ([commandSingle (tellMusic "play")],
     inr (mkResult
            [mkContent "text"
               "Error: AppleScript error: AppleScript execution error: Music is not running"]
            true)).
Proof. reflexivity. Qed.

Example failing_pause_without_stderr :
  callTool bareFailingExec "music_pause" noArguments =
    ([commandSingle (tellMusic "pause")],
     inr (mkResult
            [mkContent "text" "Error: AppleScript error: Command failed without stderr"]
            true)).
Proof. reflexivity. Qed.

(** A required free-text property that is absent: the method call on
    [undefined] throws inside the [try] block, and the handler answers with
    an error result before any command is built. *)
Example missing_song :
  callTool silentExec "music_play_song" noArguments =
    ([],
     inr (mkResult
            [mkContent "text"
               "Error: Cannot read properties of undefined (reading 'replace')"]
            true)).
Proof. reflexivity. Qed.

(** C5: the registry lists 28 tools, and for every name that is not one of
    them the call returns [isError = true] with the text
    ["Unknown tool: <name>"]; the log of executed commands is empty. *)
Theorem C5_unknown_tool :
  forall (execSync : string -> JsError + string) (name : string) (args : Args),
    ~ In name toolNames ->
    length tools = 28 /\
    callTool execSync name args =
      ([], inr (mkResult [mkContent "text" ("Unknown tool: " ++ name)] true)).
Proof.
  intros execSync name args H. split; [reflexivity|].
  apply callTool_default. now apply selectCase_none.
Qed.

Lemma C5_unknown_tool_witness :
  ~ In "unknown_tool" toolNames /\
  callTool silentExec "unknown_tool" noArguments =
    ([], inr (mkResult [mkContent "text" "Unknown tool: unknown_tool"] true)).
Proof.
  assert (H : ~ In "unknown_tool" toolNames).
  { unfold toolNames, tools. simpl. intuition discriminate. }
  split; [exact H|].
  exact (proj2 (C5_unknown_tool silentExec "unknown_tool" noArguments H)).
Defined.

(** C7: the list-tools response carries 28 names; each of them selects a
    clause of the switch labelled with that very name, so that a call never
    answers ["Unknown tool: <name>"] for it; and every name that selects a
    clause occurs exactly once among the listed names. *)
Theorem C7_registry_dispatch_roundtrip :
  forall (execSync : string -> JsError + string),
    length toolNames = 28 /\
    (forall name,
        In name toolNames ->
        (exists body, selectCase execSync name = Some (name, body)) /\
        (forall args,
            snd (callTool execSync name args) <>
              inr (mkResult [mkContent "text" ("Unknown tool: " ++ name)] true))) /\
    (forall name c,
        selectCase execSync name = Some c ->
        count_occ string_dec toolNames name = 1).
Proof.
  intros execSync. split; [reflexivity|]. split.
  - intros name Hin.
    destruct (selectCase_registered execSync name Hin) as [c Hsel].
    destruct (selectCase_some execSync name c Hsel) as (Hfst & _ & _).
    split.
    + exists (snd c). rewrite Hsel. destruct c; simpl in *. now subst.
    + intros args.
      destruct (callTool_clause execSync name args c Hsel)
        as [(e & _ & ->) | [(_ & ->) | (cmd & k & _ & _ & ->)]]; simpl.
      * discriminate.
      * discriminate.
      * destruct (execSync cmd); discriminate.
  - intros name c Hsel.
    destruct (selectCase_some execSync name c Hsel) as (_ & _ & Hin).
    unfold toolNames, tools in Hin. simpl in Hin.
    repeat (destruct Hin as [<- | Hin]); try contradiction; reflexivity.
Qed.

(* ================================================================= *)
(** ** Volume and repeat mode *)





(** The same call above the range. *)
Example set_volume_150 :
  callTool silentExec "music_set_volume" (argsVolume 150) =
    ([commandSingle (tellMusic "set sound volume to 100")],
     inr (mkResult [mkContent "text" "Volume set to 100%"] false)).
Proof. reflexivity. Qed.

(** C10: for every mode string the token written into the command is one of
    [off], [one], [all]: [off] and [one] stand for themselves and every other
    string becomes [all]; the command is the single statement that sets the
    song repeat to that token; and when it succeeds the text echoes the mode
    as it was given, ["Repeat mode set to <mode>"]. *)
Theorem C10_repeat_token_closed :
  forall (execSync : string -> JsError + string) (args : Args) (m : string),
    mode args = Some m ->
    let token := repeatValue (Some m) in
    let cmd := commandSingle (tellMusic ("set song repeat to " ++ token)) in
    In token ["off"; "one"; "all"] /\
    (m = "off" -> token = "off") /\
    (m = "one" -> token = "one") /\
    (m <> "off" -> m <> "one" -> token = "all") /\
    commandsOf execSync "music_set_repeat" args = [cmd] /\
    (forall out,
        execSync cmd = inr out ->
        snd (callTool execSync "music_set_repeat" args) =
          inr (mkResult [mkContent "text" ("Repeat mode set to " ++ m)] false)).
Proof.
  intros execSync args m Hm token cmd.
  pose proof (callTool_set_repeat execSync args) as H.
  cbv zeta in H. rewrite Hm in H. cbn [interpolate] in H.
  fold token in H. fold cmd in H.
  unfold commandsOf. rewrite H. cbn [fst snd].
  refine (conj _ (conj _ (conj _ (conj _ (conj _ _))))).
  - apply repeatValue_closed.
  - intros ->. reflexivity.
  - intros ->. reflexivity.
  - apply repeatValue_other.
  - reflexivity.
  - intros out Hout. now rewrite Hout.
Qed.

Lemma C10_repeat_token_closed_witness :
  commandsOf silentExec "music_set_repeat" (argsMode "shuffle-all") =
    [commandSingle (tellMusic "set song repeat to all")] /\
  snd (callTool silentExec "music_set_repeat" (argsMode "shuffle-all")) =
    inr (mkResult [mkContent "text" "Repeat mode set to shuffle-all"] false).
Proof.
  pose proof (C10_repeat_token_closed silentExec (argsMode "shuffle-all")
                "shuffle-all" eq_refl) as H.
  split.
  - exact (proj1 (proj2 (proj2 (proj2 (proj2 H))))).
  - exact (proj2 (proj2 (proj2 (proj2 (proj2 H)))) "" eq_refl).
Defined.

(** C3, as the code has it: a mode outside {off, one, all} is not rejected.
    The dispatcher writes the token [all] in its place, hands that one
    command to the executor, and returns a non-error result when the command
    succeeds; an error result can only come from a failed execution. *)
Theorem C3_repeat_mode_normalised :
  forall (execSync : string -> JsError + string) (args : Args) (m : string),
    mode args = Some m ->
    ~ In m ["off"; "one"; "all"] ->
    let cmd := commandSingle (tellMusic "set song repeat to all") in
    commandsOf execSync "music_set_repeat" args = [cmd] /\
    (forall out,
        execSync cmd = inr out ->
        exists r,
          snd (callTool execSync "music_set_repeat" args) = inr r /\
          isError r = false) /\
    (forall r,
        snd (callTool execSync "music_set_repeat" args) = inr r ->
        isError r = true ->
        exists e, execSync cmd = inl e).
Proof.
  intros execSync args m Hm Hout cmd.
  assert (Htok : repeatValue (Some m) = "all").
  { apply repeatValue_other; intros ->; apply Hout; simpl; tauto. }
  pose proof (callTool_set_repeat execSync args) as H.
  cbv zeta in H. rewrite Hm in H. cbn [interpolate] in H.
  rewrite Htok in H.
  change ("set song repeat to " ++ "all") with "set song repeat to all" in H.
  fold cmd in H.
  unfold commandsOf. rewrite H. cbn [fst snd].
  refine (conj _ (conj _ _)).
  - reflexivity.
  - intros out Hexec. rewrite Hexec. now eexists.
  - intros r Hr Herr. destruct (execSync cmd) as [e|out]; [now exists e|].
    inversion Hr; subst r. discriminate.
Qed.

Lemma C3_repeat_mode_normalised_witness :
  commandsOf silentExec "music_set_repeat" (argsMode "invalid") =
    [commandSingle (tellMusic "set song repeat to all")].
Proof.
  assert (H : ~ In "invalid" ["off"; "one"; "all"]).
  { simpl. intuition discriminate. }
  exact (proj1 (C3_repeat_mode_normalised silentExec (argsMode "invalid")
                  "invalid" eq_refl H)).
Defined.

(** The claim as stated fails at mode ["invalid"]: the value is outside the
    enumeration, yet the call does not both return an error and leave the
    executor untouched. *)
Lemma C3_rejection_counterexample :
  ~ In "invalid" ["off"; "one"; "all"] /\
  ~ ((exists r,
         snd (callTool silentExec "music_set_repeat" (argsMode "invalid")) = inr r /\
         isError r = true) /\
     commandsOf silentExec "music_set_repeat" (argsMode "invalid") = []).
Proof.
  split.
  - simpl. intuition discriminate.
  - intros [_ H]. discriminate H.
Qed.

(* ================================================================= *)
(** ** Free text in the generated commands *)




(** At the level of the command string: take any tool of the registry, any
    of its free-text parameters (a string with no enumeration: playlist,
    query, song, album, artist) and the value [v] a call gives it. Every command the call hands to the
    executor is then [osascript -e] followed by a double-quoted body, the
    body being the script after the multi-line escaping; the script holds
    [v] after the per-script replacement, so the command holds [v] after
    both escapings; each double quote of [v] has become three backslashes
    and a quote; and no quote of the body is bare. *)
Lemma free_text_in_command :
  forall (execSync : string -> JsError + string) (t : Tool) (p : Property)
         (v : string) (args : Args) (cmd : string),
    In t tools ->
    In p (properties t) ->
    isFreeText p = true ->
    stringArg args (pname p) = Some v ->
    In cmd (commandsOf execSync (name t) args) ->
    exists script,
      cmd = "osascript -e " ++ dq ++ escapeMulti script ++ dq /\
      occurs (escapeQuotes v) script /\
      occurs (escapeMulti (escapeQuotes v)) cmd /\
      (forall a b,
          v = a ++ dq ++ b ->
          escapeMulti (escapeQuotes v) =
            escapeMulti (escapeQuotes a) ++ (bs ++ bs ++ bs ++ dq)
              ++ escapeMulti (escapeQuotes b)) /\
      quotesEscaped (escapeMulti script) = true.
Proof.
  intros execSync t p v args cmd Ht Hp Hfree Hv Hcmd.
  destruct (registry_free_text execSync t p v args Ht Hp Hfree Hv cmd Hcmd)
    as (script & -> & Hocc).
  destruct (commandMulti_sound v script Hocc) as [Hcmd' Hq].
  exists script. refine (conj eq_refl (conj Hocc (conj Hcmd' (conj _ Hq)))).
  intros a b ->. unfold escapeQuotes.
  rewrite !replaceAll_app, !escapeMulti_app. reflexivity.
Qed.

(** The text the regression test looks for: the name with each of its
    quotes behind three backslashes. *)
Example quotedName_in_command :
  escapeMulti (escapeQuotes quotedName) =
    "Test " ++ bs ++ bs ++ bs ++ dq ++ "Playlist" ++ bs ++ bs ++ bs ++ dq.
Proof. reflexivity. Qed.

(** The per-script replacement does not touch a backslash of the value: a
    backslash in front of a quote of the value pairs up with the backslash
    the replacement adds, and the quote that follows is bare inside the
    script. The body of the shell literal stays well formed all the same. *)
Remark escapeQuotes_keeps_backslash :
  escapeQuotes (bs ++ dq) = bs ++ bs ++ dq /\
  quotesEscaped (escapeQuotes (bs ++ dq)) = false /\
  quotesEscaped (escapeMulti (escapeQuotes (bs ++ dq))) = true.
Proof. repeat split. Qed.

Lemma noExpansion_app (a b : string) :
  noExpansion (a ++ b) = noExpansion a && noExpansion b.
Proof.
  induction a as [|c a IH]; [reflexivity|].
  cbn [append noExpansion]. now rewrite IH, andb_assoc.
Qed.

Lemma noExpansion_escapeQuotes (s : string) :
  noExpansion s = true -> noExpansion (escapeQuotes s) = true.
Proof.
  induction s as [|c r IH]; [reflexivity|].
  cbn [noExpansion]. intros H. apply andb_true_iff in H. destruct H as [Hc Hr].
  rewrite escapeQuotes_cons, noExpansion_app, (IH Hr), andb_true_r.
  destruct (Ascii.eqb c dquote) eqn:Hq.
  - reflexivity.
  - cbn [str1 noExpansion]. now rewrite Hc.
Qed.

(** C1, at a playlist name that starts with a backslash and a double quote:
    the one command runs the playlist script built from the name after the
    per-script replacement; the shell hands that script on unchanged (the
    rest of the name holding no dollar sign and no backquote); and in it the
    literal that should hold the name holds a lone backslash and ends at the
    quote of the name, which is thereby bare: the rest of the name stands
    in the script after the literal, as script text. *)
Theorem C1_backslash_then_quote_leaves_the_literal :
  forall (execSync : string -> JsError + string) (payload : string),
    let v := bs ++ dq ++ payload in
    let script := play_playlist_script (escapeQuotes v) false in
    commandsOf execSync "music_play_playlist" (argsPlaylist v) = [commandMulti script] /\
    (noExpansion payload = true ->
       shellWord Unquoted (dq ++ escapeMulti script ++ dq) = Some script) /\
    exists body tail,
      script =
        (nl ++ "tell application " ++ q "Music" ++ nl ++ "  try" ++ nl
            ++ "    set thePlaylist to playlist ") ++ String dquote body /\
      readLiteral body = Some (bs, escapeQuotes payload ++ tail).
Proof.
  intros execSync payload v script. refine (conj _ (conj _ _)).
  - unfold commandsOf. rewrite callTool_play_playlist. reflexivity.
  - intros Hp.
    change (shellWord InDouble (escapeMulti script ++ dq) = Some script).
    apply shellWord_double_body.
    pose proof (noExpansion_escapeQuotes payload Hp) as He.
    subst script v. unfold play_playlist_script, unlines, q.
    cbn [String.concat]. rewrite !noExpansion_app.
    unfold escapeQuotes in *. rewrite !replaceAll_app, !noExpansion_app, He.
    reflexivity.
  - set (post :=
           nl ++ String.concat nl
                   [ "    " ++ "";
                     "    play thePlaylist";
                     "    return " ++ q ("Playing playlist: " ++ escapeQuotes v);
                     "  on error";
                     "    return " ++ q ("Playlist not found: " ++ escapeQuotes v);
                     "  end try";
                     "end tell" ]).
    exists (escapeQuotes v ++ dq ++ post), (dq ++ post). split.
    + subst script post. unfold play_playlist_script, unlines, q.
      cbn [String.concat]. rewrite !append_assoc. reflexivity.
    + reflexivity.
Qed.

(* ================================================================= *)
(** ** Defaults *)


(** The defaults at work: the cap of the listing, and the shuffle statement
    of the two play commands. *)
Example default_limit_in_script :
  commandsOf silentExec "music_get_playlist_tracks" (argsPlaylist "Favorites") =
    [commandMulti (playlist_tracks_script "Favorites" 50)] /\
  occurs "if trackCount < 50 then" (playlist_tracks_script "Favorites" 50).
Proof. split; [reflexivity | apply playlist_tracks_script_cap]. Qed.

Example shuffle_statement :
  forall s : string,
    occurs "set shuffle enabled to true" (play_playlist_script s true) /\
    occurs "set shuffle enabled to true" (play_artist_script s true) /\
    play_playlist_script s true <> play_playlist_script s false /\
    play_artist_script s true <> play_artist_script s false.
Proof.
  intros s. refine (conj _ (conj _ (conj _ _))).
  - unfold play_playlist_script. occ_line 4.
  - unfold play_artist_script. occ_line 5.
  - intro H. apply (f_equal String.length) in H.
    unfold play_playlist_script, unlines, q in H. cbn [String.concat] in H.
    rewrite !length_append in H. simpl in H. lia.
  - intro H. apply (f_equal String.length) in H.
    unfold play_artist_script, unlines, q in H. cbn [String.concat] in H.
    rewrite !length_append in H. simpl in H. lia.
Qed.

(* ================================================================= *)
(** ** Search *)


(** C6, for the calls that carry a query: a search type outside {songs,
    albums, artists, all} gives [isError = true] with the text
    ["Invalid search type"] and an empty command log. Inside the set, the one command runs the template of
    the type: songs and all share one, albums and artists have their own,
    and the three differ. Each template guards its loop with
    [if matchCount < <limit> then], the album and artist templates test
    [is not in] before they append. Read as loops over the matching tracks,
    they emit at most [limit] lines, and the album keys (album and album
    artist) and the artist names they keep are pairwise different. *)
Theorem C6_search_type_dispatch :
  forall (execSync : string -> JsError + string) (args : Args) (qy : string),
    query args = Some qy ->
    let st := withDefault "all" (searchType args) in
    let lim := withDefault 20%Z (limit args) in
    let sq := escapeQuotes qy in
    (~ In st ["songs"; "albums"; "artists"; "all"] ->
       callTool execSync "music_search_library" args =
         ([], inr (mkResult [mkContent "text" "Invalid search type"] true))) /\
    (In st ["songs"; "all"] ->
       commandsOf execSync "music_search_library" args =
         [commandMulti (search_songs_script sq lim)]) /\
    (st = "albums" ->
       commandsOf execSync "music_search_library" args =
         [commandMulti (search_albums_script sq lim)]) /\
    (st = "artists" ->
       commandsOf execSync "music_search_library" args =
         [commandMulti (search_artists_script sq lim)]) /\
    (search_songs_script sq lim <> search_albums_script sq lim /\
     search_songs_script sq lim <> search_artists_script sq lim /\
     search_albums_script sq lim <> search_artists_script sq lim) /\
    (occurs ("if matchCount < " ++ Z_toString lim ++ " then") (search_songs_script sq lim) /\
     occurs ("if matchCount < " ++ Z_toString lim ++ " then") (search_albums_script sq lim) /\
     occurs ("if matchCount < " ++ Z_toString lim ++ " then") (search_artists_script sq lim)) /\
    (occurs "if albumKey is not in albumList then" (search_albums_script sq lim) /\
     occurs "if artistName is not in artistList then" (search_artists_script sq lim)) /\
    (forall matches,
        length (Script.capped_lines lim Script.songLine matches) <= Z.to_nat lim) /\
    (forall textEq matches,
        length (Script.dedup_keys textEq lim Script.albumKey matches) <= Z.to_nat lim /\
        Script.distinct textEq (Script.dedup_keys textEq lim Script.albumKey matches)) /\
    (forall textEq matches,
        length (Script.dedup_keys textEq lim Script.trackArtist matches) <= Z.to_nat lim /\
        Script.distinct textEq (Script.dedup_keys textEq lim Script.trackArtist matches)).
Proof.
  intros execSync args qy Hq st lim sq.
  pose proof (callTool_search_library execSync args) as Hc.
  rewrite Hq in Hc. fold st lim sq in Hc. unfold commandsOf.
  refine (conj _ (conj _ (conj _ (conj _ (conj _ (conj _ (conj _ (conj _ (conj _ _))))))))).
  - intros Hout. rewrite Hc. unfold search_script.
    assert (Hne : forall x, In x ["songs"; "albums"; "artists"; "all"] -> (st =? x) = false).
    { intros x Hx. apply String.eqb_neq. intros ->. now apply Hout. }
    rewrite (Hne "songs"), (Hne "all"), (Hne "albums"), (Hne "artists");
      simpl; tauto.
  - intros Hin. rewrite Hc. unfold search_script.
    replace ((st =? "songs") || (st =? "all")) with true; [reflexivity|].
    symmetry. apply orb_true_iff.
    destruct Hin as [<- | [<- | []]]; [left | right]; reflexivity.
  - intros Hst. rewrite Hc, Hst. reflexivity.
  - intros Hst. rewrite Hc, Hst. reflexivity.
  - apply search_scripts_distinct.
  - refine (conj _ (conj _ _)).
    + apply search_songs_script_cap.
    + apply search_albums_script_cap.
    + apply search_artists_script_cap.
  - split; [apply search_albums_script_dedup | apply search_artists_script_dedup].
  - intros matches. apply capped_lines_length.
  - intros textEq matches.
    destruct (dedup_keys_sound textEq lim Script.albumKey matches) as (H1 & H2 & _).
    now split.
  - intros textEq matches.
    destruct (dedup_keys_sound textEq lim Script.trackArtist matches) as (H1 & H2 & _).
    now split.
Qed.

(** The claim as stated fails at a call that gives the search type
    ["invalid"] and no query: the type is outside the enumeration, yet the
    text of the result is not ["Invalid search type"], because the query is
    escaped before the type is looked at and the method call on the absent
    query throws. *)
Lemma C6_missing_query_counterexample :
  ~ In "invalid" ["songs"; "albums"; "artists"; "all"] /\
  snd (callTool silentExec "music_search_library" (argsSearchTypeOnly "invalid")) =
    inr (mkResult
           [mkContent "text"
              "Error: Cannot read properties of undefined (reading 'replace')"]
           true) /\
  snd (callTool silentExec "music_search_library" (argsSearchTypeOnly "invalid")) <>
    inr (mkResult [mkContent "text" "Invalid search type"] true).
Proof.
  refine (conj _ (conj eq_refl _)).
  - simpl. intuition discriminate.
  - discriminate.
Qed.

Lemma C6_search_type_dispatch_witness :
  callTool silentExec "music_search_library" (argsSearch "Test" (Some "invalid")) =
    ([], inr (mkResult [mkContent "text" "Invalid search type"] true)).
Proof.
  apply (C6_search_type_dispatch silentExec (argsSearch "Test" (Some "invalid"))
           "Test" eq_refl).
  simpl. intuition discriminate.
Defined.

(* ================================================================= *)
(** ** Empty result sets *)


(** Whenever the listing script prints nothing but white space, the text of
    the result is the header alone. *)
Lemma get_playlists_blank_output
    (execSync : string -> JsError + string) (args : Args) (out : string) :
  execSync (commandMulti playlists_script) = inr out ->
  trim out = "" ->
  callTool execSync "music_get_playlists" args =
    ([commandMulti playlists_script], inr (okResult ("Playlists:" ++ nl))).
Proof.
  intros Hexec Htrim. rewrite callTool_get_playlists, Hexec, Htrim. reflexivity.
Qed.

(** C9, at the library without playlists: the loop of the listing script
    builds the empty text; unlike the scripts that list tracks, albums or
    artists, this script has no guard for the empty text; and the call
    returns the non-error text ["Playlists:"] followed by a line feed, which
    is not the empty string and is not a message that says the list is
    empty. *)
Theorem C9_get_playlists_empty_library :
  Script.playlists_result [] = "" /\
  ~ occurs emptyGuard playlists_script /\
  callTool emptyLibraryExec "music_get_playlists" noArguments =
    ([commandMulti playlists_script],
     inr (mkResult [mkContent "text" ("Playlists:" ++ nl)] false)).
Proof.
  refine (conj eq_refl (conj _ eq_refl)).
  apply not_occurs. reflexivity.
Qed.

(* ================================================================= *)
(** ** The escaping helpers, read back *)

(** X1: the word [runAppleScript] writes after [osascript -e] is the script
    between single quotes, each single quote of the script spliced in as a
    double-quoted one; whatever the script, the shell reads that word back
    as the script itself. *)
Theorem runAppleScript_word_round_trip :
  forall script : string,
    commandSingle script = "osascript -e " ++ (sq ++ escapeSingle script ++ sq) /\
    shellWord Unquoted (sq ++ escapeSingle script ++ sq) = Some script.
Proof.
  intros script. split; [reflexivity|].
  cbn [append sq str1 shellWord]. rewrite Ascii.eqb_refl.
  apply shellWord_single_body.
Qed.

(** X2: the word [runAppleScriptMulti] writes after [osascript -e] is the
    escaped script between double quotes; for a script with no dollar sign
    and no backquote the shell reads that word back as the script itself. *)
Theorem runAppleScriptMulti_word_round_trip :
  forall script : string,
    noExpansion script = true ->
    commandMulti script = "osascript -e " ++ (dq ++ escapeMulti script ++ dq) /\
    shellWord Unquoted (dq ++ escapeMulti script ++ dq) = Some script.
Proof.
  intros script H. split; [reflexivity|].
  cbn [append dq str1 shellWord].
  change (Ascii.eqb dquote squote) with false. rewrite Ascii.eqb_refl.
  now apply shellWord_double_body.
Qed.

Lemma runAppleScriptMulti_word_round_trip_witness :
  shellWord Unquoted
    (dq ++ escapeMulti (play_playlist_script (escapeQuotes quotedName) false) ++ dq) =
    Some (play_playlist_script (escapeQuotes quotedName) false).
Proof.
  exact (proj2 (runAppleScriptMulti_word_round_trip
                  (play_playlist_script (escapeQuotes quotedName) false) eq_refl)).
Defined.

Lemma readLiteral_escapeQuotes (v rest : string) :
  noBackslash v = true ->
  readLiteral (escapeQuotes v ++ dq ++ rest) = Some (v, rest).
Proof.
  induction v as [|c r IH]; intros H.
  - cbn. reflexivity.
  - cbn [noBackslash] in H. apply andb_true_iff in H. destruct H as [Hc Hr].
    apply negb_true_iff in Hc. specialize (IH Hr).
    rewrite escapeQuotes_cons, append_assoc.
    remember (escapeQuotes r ++ dq ++ rest) as tail.
    destruct (Ascii.eqb c dquote) eqn:Hq.
    + apply Ascii.eqb_eq in Hq. subst c. cbn. now rewrite IH.
    + cbn [append str1 readLiteral]. rewrite Hq, Hc. now rewrite IH.
Qed.

(** X4: a literal the templates write, [q (escapeQuotes v)], denotes [v]
    and ends at the quote the template closes it with, whenever [v] holds
    no backslash. *)
Theorem escaped_literal_round_trip :
  forall v rest : string,
    noBackslash v = true ->
    exists body,
      q (escapeQuotes v) ++ rest = String dquote body /\
      readLiteral body = Some (v, rest).
Proof.
  intros v rest H. exists (escapeQuotes v ++ dq ++ rest). split.
  - unfold q. now rewrite !append_assoc.
  - now apply readLiteral_escapeQuotes.
Qed.

Lemma escaped_literal_round_trip_witness :
  exists body,
    q (escapeQuotes quotedName) ++ ")" = String dquote body /\
    readLiteral body = Some (quotedName, ")").
Proof.
  exact (escaped_literal_round_trip quotedName ")" eq_refl).
Defined.

(** X5: a value that starts with a backslash and a quote ends the literal
    early: the literal denotes the backslash alone, and the rest of the
    value is read as script text after it. *)
Theorem backslash_quote_ends_literal :
  forall payload rest : string,
    exists body,
      q (escapeQuotes (bs ++ dq ++ payload)) ++ rest = String dquote body /\
      readLiteral body = Some (bs, escapeQuotes payload ++ dq ++ rest).
Proof.
  intros payload rest.
  exists (escapeQuotes (bs ++ dq ++ payload) ++ dq ++ rest). split.
  - unfold q. now rewrite !append_assoc.
  - reflexivity.
Qed.

(* ================================================================= *)
(** ** The dispatcher as a whole *)

(** X6: whatever the tool name and the arguments, one call hands at most
    one command to the executor. *)
Theorem at_most_one_command :
  forall (execSync : string -> JsError + string) (name : string) (args : Args),
    length (commandsOf execSync name args) <= 1.
Proof.
  intros execSync name args. unfold commandsOf.
  destruct (selectCase execSync name) as [c|] eqn:Hsel.
  - destruct (callTool_clause execSync name args c Hsel)
      as [(e & _ & ->) | [(_ & ->) | (cmd & k & _ & _ & ->)]]; simpl; lia.
  - rewrite (callTool_default execSync name args Hsel). simpl. lia.
Qed.

(** X7: a command that the executor ran without failure never ends in an
    error result: the result then carries one text item and no error
    flag, whatever the script printed. *)
Theorem success_is_never_an_error :
  forall (execSync : string -> JsError + string) (name : string) (args : Args)
         (cmd out : string),
    In cmd (commandsOf execSync name args) ->
    execSync cmd = inr out ->
    exists t,
      snd (callTool execSync name args) = inr (mkResult [mkContent "text" t] false).
Proof.
  intros execSync name args cmd out Hin Hexec. unfold commandsOf in Hin.
  destruct (selectCase execSync name) as [c|] eqn:Hsel.
  - destruct (callTool_clause execSync name args c Hsel)
      as [(e & _ & Hc) | [(_ & Hc) | (cmd' & k & _ & _ & Hc)]];
      rewrite Hc in *; simpl in Hin; try contradiction.
    destruct Hin as [<- | []]. simpl. rewrite Hexec. now eexists.
  - rewrite (callTool_default execSync name args Hsel) in Hin. contradiction.
Qed.

Lemma success_is_never_an_error_witness :
  exists t,
    snd (callTool silentExec "music_play" noArguments) =
      inr (mkResult [mkContent "text" t] false).
Proof.
  apply (success_is_never_an_error silentExec "music_play" noArguments
           (commandSingle (tellMusic "play")) "").
  - left. reflexivity.
  - reflexivity.
Defined.



(** X9: a tool whose schema declares no property ignores its arguments:
    any two argument objects give the same commands and the same result. *)
Theorem argumentless_tools_ignore_arguments :
  forall (execSync : string -> JsError + string) (t : Tool) (args args' : Args),
    In t tools ->
    properties t = [] ->
    callTool execSync (name t) args = callTool execSync (name t) args'.
Proof.
  intros execSync t args args' Ht Hp. unfold tools in Ht. simpl in Ht.
  repeat (destruct Ht as [<- | Ht]); try contradiction;
    try discriminate Hp; reflexivity.
Qed.

Lemma argumentless_tools_ignore_arguments_witness :
  callTool failingExec "music_quit" noArguments =
  callTool failingExec "music_quit" (argsVolume 3).
Proof.
  apply (argumentless_tools_ignore_arguments failingExec
           (noArgs "music_quit" "Quit the Music app")).
  - unfold tools. simpl. do 27 right. left. reflexivity.
  - reflexivity.
Defined.

(* ================================================================= *)
(** ** Volume and position *)

Lemma Z_toString_injective (z1 z2 : Z) :
  Z_toString z1 = Z_toString z2 -> z1 = z2.
Proof.
  unfold Z_toString. intros H.
  assert (Hnn : forall z, NilZero.int_of_string (NilZero.string_of_int (Z.to_int z)) =
                          Some (Z.to_int z)).
  { intros z. apply NilZero.isi; destruct z; simpl; try discriminate;
      intros [= Hp]; now apply DecimalPos.Unsigned.to_uint_nonnil in Hp. }
  apply (f_equal NilZero.int_of_string) in H. rewrite !Hnn in H.
  injection H as H. apply (f_equal Z.of_int) in H.
  now rewrite !DecimalZ.of_to in H.
Qed.

Lemma append_inv_head (a x y : string) : a ++ x = a ++ y -> x = y.
Proof.
  induction a as [|c a IH]; simpl; [trivial|].
  intros [= H]. now apply IH.
Qed.

Lemma commandSingle_injective (s1 s2 : string) :
  commandSingle s1 = commandSingle s2 -> s1 = s2.
Proof.
  intros H.
  change (commandSingle s1) with ("osascript -e " ++ (sq ++ escapeSingle s1 ++ sq)) in H.
  change (commandSingle s2) with ("osascript -e " ++ (sq ++ escapeSingle s2 ++ sq)) in H.
  apply append_inv_head in H.
  apply (f_equal (shellWord Unquoted)) in H.
  cbn [append sq str1 shellWord] in H. rewrite Ascii.eqb_refl in H.
  fold sq in H.
  change (String squote EmptyString) with sq in H.
  rewrite !shellWord_single_body in H. now injection H.
Qed.

Lemma callTool_set_position (execSync : string -> JsError + string) (args : Args) :
  let cmd :=
    commandSingle
      (tellMusic ("set player position to " ++ interpolate Z_toString (position args))) in
  callTool execSync "music_set_position" args =
    ([cmd],
     match execSync cmd with
     | inr out =>
         inr (okResult ("Position set to " ++ interpolate Z_toString (position args)
                          ++ " seconds"))
     | inl e => inr (errResult ("Error: AppleScript error: " ++ stderr_or_message e))
     end).
Proof.
  intros cmd.
  apply (callTool_runs execSync "music_set_position" args cmd
           (fun _ => okResult ("Position set to "
                                 ++ interpolate Z_toString (position args) ++ " seconds"))).
  intro l. apply (bind_runAppleScript execSync _ (fun _ => okResult _)).
Qed.

(** X10: the position is written into the command as it is given, with no
    bound applied: two different positions, both safe integers, never give
    the same command. *)
Theorem set_position_is_not_clamped :
  forall (execSync : string -> JsError + string) (p p' : Z),
    (Z.abs p <= maxSafeInteger)%Z ->
    (Z.abs p' <= maxSafeInteger)%Z ->
    p <> p' ->
    commandsOf execSync "music_set_position" (argsPosition p) =
      [commandSingle (tellMusic ("set player position to " ++ Z_toString p))] /\
    commandsOf execSync "music_set_position" (argsPosition p) <>
    commandsOf execSync "music_set_position" (argsPosition p').
Proof.
  intros execSync p p' _ _ Hne. unfold commandsOf.
  rewrite !callTool_set_position. cbn [fst position argsPosition interpolate].
  split; [reflexivity|].
  intros H. apply (f_equal (hd EmptyString)) in H. cbn [hd] in H.
  apply commandSingle_injective in H. unfold tellMusic in H.
  apply append_inv_head, append_inv_head, append_inv_head, append_inv_head in H.
  now apply Z_toString_injective in H.
Qed.

Lemma set_position_is_not_clamped_witness :
  commandsOf silentExec "music_set_position" (argsPosition 150) <>
  commandsOf silentExec "music_set_position" (argsPosition 100).
Proof.
  assert (H1 : (Z.abs 150 <= maxSafeInteger)%Z) by (unfold maxSafeInteger; lia).
  assert (H2 : (Z.abs 100 <= maxSafeInteger)%Z) by (unfold maxSafeInteger; lia).
  assert (H : 150%Z <> 100%Z) by lia.
  exact (proj2 (set_position_is_not_clamped silentExec 150 100 H1 H2 H)).
Defined.

(** X11: setting the volume to [v] is the same call as setting it to the
    clamped [v]: same command, same result. Clamping an already clamped
    value changes nothing. *)
Theorem set_volume_clamp_idempotent :
  forall (execSync : string -> JsError + string) (v : Z),
    callTool execSync "music_set_volume" (argsVolume v) =
    callTool execSync "music_set_volume" (argsVolume (Z.max 0 (Z.min 100 v))).
Proof.
  intros execSync v. rewrite !callTool_set_volume.
  cbn [volume argsVolume toNumber Math_min Math_max Number_toString].
  replace (Z.max 0 (Z.min 100 (Z.max 0 (Z.min 100 v))))
    with (Z.max 0 (Z.min 100 v)) by lia.
  reflexivity.
Qed.

(* ================================================================= *)
(** ** The optional artist *)

Lemma matching_tracks_stmt_filter (safeSong a : string) :
  a <> "" ->
  matching_tracks_stmt safeSong (safeOptional (Some a)) =
    "set matchingTracks to (every track whose name contains " ++ q safeSong
      ++ " and artist contains " ++ q (escapeQuotes a) ++ ")".
Proof.
  intros Ha. destruct (safeOptional_cases a) as [[-> _] | [Hne ->]];
    [contradiction|].
  unfold matching_tracks_stmt, ifTruthy.
  apply String.eqb_neq in Hne. now rewrite Hne.
Qed.

(** X12: for playing a song, playing an album and queueing a song, an
    artist given as the empty string is an artist not given: the call is
    the one without the property. With a non-empty artist the song
    statement narrows on both fields; without one, on the name alone. *)
Theorem empty_artist_is_no_artist :
  forall (execSync : string -> JsError + string) (args : Args),
    (forall name,
        In name ["music_play_song"; "music_play_album"; "music_add_to_queue"] ->
        artist args = Some "" ->
        callTool execSync name args = callTool execSync name (set_artist None args)) /\
    (forall s a,
        song args = Some s -> artist args = Some a -> a <> "" ->
        commandsOf execSync "music_play_song" args =
          [commandMulti (play_song_script (escapeQuotes s) (Some (escapeQuotes a)))] /\
        matching_tracks_stmt (escapeQuotes s) (Some (escapeQuotes a)) =
          "set matchingTracks to (every track whose name contains " ++ q (escapeQuotes s)
            ++ " and artist contains " ++ q (escapeQuotes a) ++ ")") /\
    (forall s,
        song args = Some s -> artist args = None ->
        commandsOf execSync "music_play_song" args =
          [commandMulti (play_song_script (escapeQuotes s) None)] /\
        matching_tracks_stmt (escapeQuotes s) None =
          "set matchingTracks to (every track whose name contains " ++ q (escapeQuotes s)
            ++ ")").
Proof.
  intros execSync args. refine (conj _ (conj _ _)).
  - intros name Hin Ha.
    destruct Hin as [<- | [<- | [<- | []]]].
    + rewrite !callTool_play_song. cbn [song artist set_artist]. now rewrite Ha.
    + rewrite !callTool_play_album. cbn [album artist set_artist]. now rewrite Ha.
    + rewrite !callTool_add_to_queue. cbn [song artist set_artist]. now rewrite Ha.
  - intros s a Hs Ha Hne. unfold commandsOf.
    rewrite callTool_play_song, Hs, Ha.
    destruct (safeOptional_cases a) as [[-> _] | [Hq Hsafe]]; [contradiction|].
    rewrite Hsafe. split; [reflexivity|].
    rewrite <- Hsafe. now apply matching_tracks_stmt_filter.
  - intros s Hs Ha. unfold commandsOf.
    rewrite callTool_play_song, Hs, Ha. split; reflexivity.
Qed.

(* ================================================================= *)
(** ** Trimmed output *)

Lemma trimEnd_cons (c : ascii) (r : string) :
  trimEnd (String c r) =
    match trimEnd r with
    | EmptyString => if isWhiteSpace c then EmptyString else str1 c
    | r' => String c r'
    end.
Proof. reflexivity. Qed.

Lemma trimEnd_idempotent (s : string) : trimEnd (trimEnd s) = trimEnd s.
Proof.
  induction s as [|c r IH]; [reflexivity|].
  rewrite trimEnd_cons. destruct (trimEnd r) as [|c' r'] eqn:Hr.
  - destruct (isWhiteSpace c) eqn:Hc; [reflexivity|].
    unfold str1. rewrite trimEnd_cons. cbn [trimEnd]. now rewrite Hc.
  - rewrite trimEnd_cons, IH. reflexivity.
Qed.

Lemma trimEnd_keeps_head (c : ascii) (r : string) :
  isWhiteSpace c = false ->
  exists r', trimEnd (String c r) = String c r'.
Proof.
  intros Hc. rewrite trimEnd_cons. destruct (trimEnd r).
  - rewrite Hc. now eexists.
  - now eexists.
Qed.

Lemma trimStart_head (s : string) :
  trimStart s = "" \/
  exists c r, trimStart s = String c r /\ isWhiteSpace c = false.
Proof.
  induction s as [|c r IH]; [now left|].
  cbn [trimStart]. destruct (isWhiteSpace c) eqn:Hc; [exact IH|].
  right. now exists c, r.
Qed.

Lemma trim_idempotent (s : string) : trim (trim s) = trim s.
Proof.
  unfold trim. destruct (trimStart_head s) as [-> | (c & r & -> & Hc)].
  - reflexivity.
  - destruct (trimEnd_keeps_head c r Hc) as [r' Hr'].
    rewrite Hr' at 1. cbn [trimStart]. rewrite Hc. rewrite <- Hr'.
    apply trimEnd_idempotent.
Qed.

(** X13: what a script run returns has no white space left at either end:
    trimming it again changes nothing. This holds for both helpers. *)
Theorem script_output_is_trimmed :
  forall (execSync : string -> JsError + string) (script : string) (l l' : Log)
         (result : string),
    runAppleScript execSync script l = (l', inr result) \/
    runAppleScriptMulti execSync script l = (l', inr result) ->
    trim result = result.
Proof.
  intros execSync script l l' result [H | H].
  - rewrite runAppleScript_run in H. unfold outcomeOf in H.
    destruct (execSync (commandSingle script)); [discriminate|].
    injection H as _ <-. apply trim_idempotent.
  - rewrite runAppleScriptMulti_run in H. unfold outcomeOf in H.
    destruct (execSync (commandMulti script)); [discriminate|].
    injection H as _ <-. apply trim_idempotent.
Qed.

Lemma script_output_is_trimmed_witness :
  trim "Favorites" = "Favorites".
Proof.
  apply (script_output_is_trimmed
           (fun _ => inr (" Favorites" ++ nl)) playlists_script [] 
           [commandMulti playlists_script] "Favorites").
  right. reflexivity.
Defined.

(* ================================================================= *)
(** ** The loops of the scripts, further *)

Section MoreLoops.

Import Script.

(** X14: the loop of the playlist-track listing keeps the lines of the
    first [limit] tracks and drops the rest; with a limit of zero or less
    it keeps none, and the script then answers ["Playlist is empty"]
    whatever the playlist holds. *)
Theorem playlist_tracks_first_limit :
  forall (tracks : list Track) (limit : Z),
    capped_lines limit playlistLine tracks =
      map playlistLine (firstn (Z.to_nat limit) tracks) /\
    ((Z.of_nat (length tracks) <= limit)%Z ->
       capped_lines limit playlistLine tracks = map playlistLine tracks) /\
    ((limit <= 0)%Z -> playlist_tracks_result tracks limit = "Playlist is empty").
Proof.
  intros tracks limit. refine (conj _ (conj _ _)).
  - apply capped_lines_firstn.
  - intros H. rewrite capped_lines_firstn, firstn_all2; [reflexivity | lia].
  - intros H. unfold playlist_tracks_result. rewrite capped_lines_firstn.
    replace (Z.to_nat limit) with 0 by lia. reflexivity.
Qed.

Variable textEq : string -> string -> bool.

Lemma emitNew_extends (limit : Z) (key : Track -> string) (ts : list Track) :
  forall (seen : list string) (count : Z),
    exists extra,
      fst (fold_left (emitNew textEq limit key) ts (seen, count)) =
        (seen ++ extra)%list.
Proof.
  induction ts as [|t ts IH]; intros seen count.
  - exists []. simpl. now rewrite app_nil_r.
  - cbn [fold_left emitNew]. destruct (count <? limit)%Z.
    + destruct (existsb (textEq (key t)) seen).
      * apply IH.
      * destruct (IH (seen ++ [key t])%list (count + 1)%Z) as [extra ->].
        exists (key t :: extra). now rewrite <- app_assoc.
    + apply IH.
Qed.

Lemma emitNew_complete (limit : Z) (key : Track -> string) (ts : list Track) :
  (forall k, textEq k k = true) ->
  forall (seen : list string) (count : Z),
    count = Z.of_nat (length seen) ->
    (Z.of_nat (length (fst (fold_left (emitNew textEq limit key) ts (seen, count))))
       < limit)%Z ->
    forall t, In t ts ->
      existsb (textEq (key t))
        (fst (fold_left (emitNew textEq limit key) ts (seen, count))) = true.
Proof.
  intros Hrefl. induction ts as [|t ts IH]; intros seen count Hc Hlen u Hu.
  - contradiction.
  - cbn [fold_left emitNew] in *.
    destruct (count <? limit)%Z eqn:Hlt.
    + destruct (existsb (textEq (key t)) seen) eqn:Hex.
      * destruct Hu as [<- | Hu]; [|now apply IH].
        destruct (emitNew_extends limit key ts seen count) as [extra ->].
        rewrite existsb_app, Hex. reflexivity.
      * assert (Hc' : (count + 1)%Z = Z.of_nat (length (seen ++ [key t]))).
        { rewrite length_app. simpl. lia. }
        destruct Hu as [<- | Hu]; [|now apply (IH _ _ Hc')].
        destruct (emitNew_extends limit key ts (seen ++ [key t])%list (count + 1)%Z)
          as [extra ->].
        rewrite !existsb_app. simpl. rewrite Hrefl.
        now rewrite orb_true_r.
    + exfalso. apply Z.ltb_ge in Hlt.
      destruct (emitNew_extends limit key ts seen count) as [extra He].
      rewrite He, length_app in Hlen. lia.
Qed.

(** X15: as long as the cap is not reached, the loops with the [is not in]
    test lose nothing: every matching track has its key, up to the
    comparison of the player, among the keys kept. *)
Theorem dedup_loses_nothing_below_the_cap :
  forall (limit : Z) (key : Track -> string) (ts : list Track),
    (forall k, textEq k k = true) ->
    (Z.of_nat (length (dedup_keys textEq limit key ts)) < limit)%Z ->
    forall t, In t ts ->
      existsb (textEq (key t)) (dedup_keys textEq limit key ts) = true.
Proof.
  intros limit key ts Hrefl Hlen t Ht. unfold dedup_keys in *.
  now apply emitNew_complete.
Qed.

End MoreLoops.

Lemma dedup_loses_nothing_below_the_cap_witness :
  Script.dedup_keys String.eqb 20 Script.albumKey twoTracksOneAlbum =
    ["Abbey Road - The Beatles"] /\
  forall t, In t twoTracksOneAlbum ->
    existsb (String.eqb (Script.albumKey t))
      (Script.dedup_keys String.eqb 20 Script.albumKey twoTracksOneAlbum) = true.
Proof.
  split; [reflexivity|].
  apply (dedup_loses_nothing_below_the_cap String.eqb 20 Script.albumKey
           twoTracksOneAlbum String.eqb_refl).
  vm_compute. reflexivity.
Defined.

(* ================================================================= *)
(** ** Required properties that are absent *)




